(** * SchemaGen: the SchemaStore facade of [server.py] over a model of the
    embedded relational engine.

    [server.py] is a thin layer: every tool builds one SQL statement (or the
    fixed copy-rebuild sequence) and hands it, with a dictionary of named
    parameters, to the SQLite driver.  The development has two layers.

    - The _engine_ ([Engine]): the database file as a catalog of tables with
      rows addressed by [rowid], and the meaning of exactly the statement
      shapes the facade generates.  It is not code of the repository; it
      records the behaviour of SQLite that the facade relies on: row
      identifiers and the INTEGER PRIMARY KEY alias, named parameters, the
      comparison with NULL, the errors for a missing table or column and
      for an empty list in a statement, the tables made by
      [CREATE TABLE ... AS SELECT].
    - The _facade_ ([Server]): one definition per function of [server.py],
      written in the order of the Python text: the same strings are built
      with the same joins, the same parameter dictionaries are bound.
      [get_db], [conn.commit()] and [conn.close()] have no counterpart: a
      computation of the monad [M] acts on the one database file, a statement
      that succeeds is durable, a statement that fails changes nothing.

    Scope of the engine model.
    - Values are NULL, integers, text and blobs; floating point values are
      left out, and integers are not bounded to 64 bits.  A value is stored
      and compared as it is bound: the conversions of SQLite's column type
      affinity are not modelled, so the model covers data that already has
      the type of its column.
    - Identifiers are plain SQL identifiers and are compared exactly (SQLite
      compares them without regard to letter case); no declared column uses
      one of the engine's names for the row identifier ([rowid], [oid],
      [_rowid_]).
    - Of a column's type/constraint string only the exact text
      [INTEGER PRIMARY KEY] is interpreted: it makes the column an alias of
      the [rowid].  Other constraints (NOT NULL, UNIQUE, DEFAULT, ...) are
      not modelled.
    - The wording of the DDL that the engine itself synthesizes (for
      [CREATE TABLE ... AS SELECT], after [ALTER TABLE ... RENAME TO] and
      after [ALTER TABLE ... ADD COLUMN]) is a parameter ([EngineText]). *)

From Stdlib Require Import String Ascii List ZArith Lia Bool Arith.
Import ListNotations.
Open Scope list_scope.
Open Scope string_scope.

Definition mem (s : string) (l : list string) : bool := existsb (String.eqb s) l.

(** No string occurs twice. *)
Fixpoint nodupb (l : list string) : bool :=
  match l with
  | [] => true
  | x :: l' => negb (mem x l') && nodupb l'
  end.

(** ** Python dictionaries

    A [Dict[str, V]]: insertion-ordered, at most one entry per key.  The order
    matters, the generated SQL lists the columns in that order. *)

Module PyDict.

Definition dict (V : Type) : Type := list (string * V).

Definition keys {V} (d : dict V) : list string := map fst d.

(** [d[k]], [None] standing for [KeyError]. *)
Fixpoint dict_get {V} (k : string) (d : dict V) : option V :=
  match d with
  | [] => None
  | (k', v) :: d' => if String.eqb k k' then Some v else dict_get k d'
  end.

(** [d[k] = v]: an existing key keeps its position, a new key goes last. *)
Fixpoint dict_set {V} (k : string) (v : V) (d : dict V) : dict V :=
  match d with
  | [] => [(k, v)]
  | (k', v') :: d' =>
      if String.eqb k k' then (k, v) :: d' else (k', v') :: dict_set k v d'
  end.



(** A list of pairs that is a dictionary: no key twice. *)
Definition is_dict {V} (d : dict V) : bool := nodupb (keys d).

End PyDict.
Export PyDict.

(** [sep.join(l)] *)
Definition join (sep : string) (l : list string) : string := String.concat sep l.

(** ** Values *)

Inductive value : Type :=
| VNull
| VInt (z : Z)
| VText (s : string)
| VBlob (b : list Byte.byte).

Fixpoint bytes_eqb (a b : list Byte.byte) : bool :=
  match a, b with
  | [], [] => true
  | x :: a', y :: b' => Byte.eqb x y && bytes_eqb a' b'
  | _, _ => false
  end.

(** Equality of two values as Python's [==] decides it on what the driver
    returns: same kind and same content. *)
Definition value_eqb (a b : value) : bool :=
  match a, b with
  | VNull, VNull => true
  | VInt x, VInt y => Z.eqb x y
  | VText x, VText y => String.eqb x y
  | VBlob x, VBlob y => bytes_eqb x y
  | _, _ => false
  end.

(** The SQL comparison [a = b] as a WHERE clause uses it: a comparison with
    NULL is unknown, and a row is kept only when the comparison is true. *)
Definition sql_eq (a b : value) : bool :=
  match a, b with
  | VNull, _ => false
  | _, VNull => false
  | _, _ => value_eqb a b
  end.

(** ** The database file *)

Record column : Type := mkColumn {
  col_name : string;
  col_rowid : bool   (* declared INTEGER PRIMARY KEY: an alias of the rowid *)
}.

Record row : Type := mkRow {
  row_id : Z;
  row_cells : list value   (* one cell per column of the table *)
}.

Record table : Type := mkTable {
  tbl_name : string;
  tbl_sql : string;        (* the creation DDL kept in the catalog *)
  tbl_cols : list column;
  tbl_rows : list row      (* in rowid order, the order of a table scan *)
}.

(** The catalog ([sqlite_master]), in its enumeration order. *)
Definition database : Type := list table.

(** ** Failures and the connection monad *)

Inductive engine_error : Type :=
| SyntaxError
| NoSuchTable (t : string)
| NoSuchColumn (c : string)
| TableExists (t : string)
| DuplicateColumn (c : string)
| MultiplePrimaryKeys (t : string)
| UniqueViolation (t : string)
| DatatypeMismatch
| MissingBinding (p : string)
| CannotAddPrimaryKey
| UndeterminedName.

Inductive exn : Type :=
| SqliteError (e : engine_error)   (* sqlite3.Error and its subclasses *)
| KeyError (k : string)            (* a dictionary without the key *)
| TypeError.                       (* subscripting None, joining what is no str *)

Inductive result (A : Type) : Type :=
| Ok (a : A)
| Raise (e : exn).
Arguments Ok {A} a.
Arguments Raise {A} e.

(** A computation on the database file.  A statement that fails leaves the
    file as it was; what earlier statements of the same call did stays. *)
Definition M (A : Type) : Type := database -> result A * database.

Definition ret {A} (a : A) : M A := fun db => (Ok a, db).
Definition raise {A} (e : exn) : M A := fun db => (Raise e, db).
Definition fail {A} (e : engine_error) : M A := raise (SqliteError e).
Definition bind {A B} (m : M A) (k : A -> M B) : M B :=
  fun db => match m db with
            | (Ok a, db') => k a db'
            | (Raise e, db') => (Raise e, db')
            end.
Definition get : M database := fun db => (Ok db, db).
Definition put (db' : database) : M unit := fun _ => (Ok tt, db').

Declare Scope conn_scope.
Delimit Scope conn_scope with conn.
Notation "x <- m ;; k" := (bind m (fun x => k))
  (at level 61, m at next level, right associativity) : conn_scope.
Notation "m ;; k" := (bind m (fun _ => k))
  (at level 61, right associativity) : conn_scope.
Open Scope conn_scope.

(** [for x in l: f(x)] collecting the results. *)
Fixpoint mapM {A B} (f : A -> M B) (l : list A) : M (list B) :=
  match l with
  | [] => ret []
  | x :: l' => y <- f x ;; ys <- mapM f l' ;; ret (y :: ys)
  end.

(** Lift a lookup that may fail. *)
Definition expect {A} (o : option A) (e : engine_error) : M A :=
  match o with Some a => ret a | None => fail e end.

(** ** The engine *)

Module Engine.

(** The statements the facade generates.  A placeholder [:p] is kept by its
    name [p]; the driver looks it up in the parameter dictionary. *)
Inductive stmt : Type :=
| SCreateTableIfNotExists (name : string) (defs : list (string * string))
| SInsert (name : string) (cols : list (string * string))       (* column, placeholder *)
| SSelectAll (name : string) (conds : list (string * string))   (* column = :placeholder *)
| SUpdateByRowid (name : string) (sets : list (string * string)) (wparam : string)
| SDeleteByRowid (name : string) (wparam : string)
| SDropTable (if_exists : bool) (name : string)
| SCreateTableAs (new_name : string) (proj : list (string * option string)) (src : string)
| SRenameTable (old_name new_name : string)
| SAddColumn (name : string) (column_name column_type : string)
| SPragmaTableInfo (name : string)
| SMasterNames
| SMasterSql (name : string).

(** The text of a statement. *)
Definition proj_text (p : string * option string) : string :=
  match snd p with
  | Some a => fst p ++ " AS " ++ a
  | None => fst p
  end.

Definition sql_text (s : stmt) : string :=
  match s with
  | SCreateTableIfNotExists n defs =>
      "CREATE TABLE IF NOT EXISTS " ++ n ++ " ("
        ++ join ", " (map (fun d => fst d ++ " " ++ snd d) defs) ++ ")"
  | SInsert n cols =>
      "INSERT INTO " ++ n ++ " (" ++ join ", " (map fst cols) ++ ") VALUES ("
        ++ join ", " (map (fun c => ":" ++ snd c) cols) ++ ")"
  | SSelectAll n conds =>
      "SELECT * FROM " ++ n ++
        match conds with
        | [] => EmptyString
        | _ => " WHERE " ++ join " AND " (map (fun c => fst c ++ " = :" ++ snd c) conds)
        end
  | SUpdateByRowid n sets w =>
      "UPDATE " ++ n ++ " SET " ++ join ", " (map (fun c => fst c ++ " = :" ++ snd c) sets)
        ++ " WHERE rowid = :" ++ w
  | SDeleteByRowid n w => "DELETE FROM " ++ n ++ " WHERE rowid = :" ++ w
  | SDropTable true n => "DROP TABLE IF EXISTS " ++ n
  | SDropTable false n => "DROP TABLE " ++ n
  | SCreateTableAs n proj src =>
      "CREATE TABLE " ++ n ++ " AS SELECT " ++ join ", " (map proj_text proj) ++ " FROM " ++ src
  | SRenameTable o n => "ALTER TABLE " ++ o ++ " RENAME TO " ++ n
  | SAddColumn n c ty => "ALTER TABLE " ++ n ++ " ADD COLUMN " ++ c ++ " " ++ ty
  | SPragmaTableInfo n => "PRAGMA table_info(" ++ n ++ ")"
  | SMasterNames => "SELECT name FROM sqlite_master WHERE type='table'"
  | SMasterSql n => "SELECT sql FROM sqlite_master WHERE type='table' AND name='" ++ n ++ "'"
  end.

(** What [conn.execute] returns: the result columns, the result rows and the
    row identifier of the last insertion. *)
Record cursor : Type := mkCursor {
  description : list string;
  tuples : list (list value);
  lastrowid : Z
}.

Definition no_rows : cursor := mkCursor [] [] 0.

(** The wording of the DDL the engine writes itself. *)
Class EngineText : Type := {
  (* stored DDL of [CREATE TABLE new AS SELECT ...]: source table, new name,
     result column names *)
  ctas_ddl : table -> string -> list string -> string;
  (* stored DDL after [ALTER TABLE ... RENAME TO new]: old DDL, new name *)
  rename_ddl : string -> string -> string;
  (* stored DDL after [ALTER TABLE ... ADD COLUMN c ty]: old DDL, c, ty *)
  add_column_ddl : string -> string -> string -> string
}.

(** *** Catalog and table access *)

Definition has_name (n : string) (t : table) : bool := String.eqb (tbl_name t) n.

Definition find_table (n : string) (db : database) : option table :=
  find (has_name n) db.

Definition table_exists (n : string) (db : database) : bool :=
  existsb (has_name n) db.

Definition remove_table (n : string) (db : database) : database :=
  filter (fun t => negb (has_name n t)) db.

(** Rewrite the catalog entry of the table [n]. *)
Fixpoint update_table (n : string) (f : table -> table) (db : database) : database :=
  match db with
  | [] => []
  | t :: db' => if has_name n t then f t :: db' else t :: update_table n f db'
  end.

Definition col_names (t : table) : list string := map col_name (tbl_cols t).

Fixpoint index_of (c : string) (l : list string) : option nat :=
  match l with
  | [] => None
  | x :: l' => if String.eqb c x then Some O
               else option_map S (index_of c l')
  end.

Definition rowid_alias (t : table) : option column := find col_rowid (tbl_cols t).

Definition rowids (t : table) : list Z := map row_id (tbl_rows t).

Definition find_row (rid : Z) (rows : list row) : option row :=
  find (fun r => Z.eqb (row_id r) rid) rows.

Definition remove_row (rid : Z) (rows : list row) : list row :=
  filter (fun r => negb (Z.eqb (row_id r) rid)) rows.

(** Rows stay in rowid order. *)
Fixpoint insert_row (r : row) (rows : list row) : list row :=
  match rows with
  | [] => [r]
  | r' :: rs => if Z.ltb (row_id r) (row_id r') then r :: rows
                else r' :: insert_row r rs
  end.

(** The row identifier the engine picks: one more than the largest in use,
    1 in an empty table. *)
Definition next_rowid (rows : list row) : Z :=
  match rows with
  | [] => 1%Z
  | r :: rs => (fold_left Z.max (map row_id rs) (row_id r) + 1)%Z
  end.

Definition with_rows (t : table) (rows : list row) : table :=
  mkTable (tbl_name t) (tbl_sql t) (tbl_cols t) rows.

Definition store_rows (n : string) (rows : list row) : M unit :=
  db <- get ;; put (update_table n (fun t => with_rows t rows) db).

(** *** Binding named parameters *)

Definition bound (p : string) (params : dict value) : M value :=
  expect (dict_get p params) (MissingBinding p).

(** The values of a list of [column, placeholder] pairs. *)
Definition bind_pairs (pairs : list (string * string)) (params : dict value)
  : M (dict value) :=
  mapM (fun cp => v <- bound (snd cp) params ;; ret (fst cp, v)) pairs.

(** The first name of [cs] that is no column of [t]. *)
Definition unknown_column (t : table) (cs : list string) : option string :=
  find (fun c => negb (mem c (col_names t))) cs.

Definition check_columns (t : table) (cs : list string) : M unit :=
  match unknown_column t cs with
  | Some c => fail (NoSuchColumn c)
  | None => ret tt
  end.

Definition the_table (n : string) : M table :=
  db <- get ;; expect (find_table n db) (NoSuchTable n).

(** *** CREATE TABLE IF NOT EXISTS *)

Definition is_rowid_alias (ty : string) : bool := String.eqb ty "INTEGER PRIMARY KEY".

Fixpoint first_duplicate (l : list string) : option string :=
  match l with
  | [] => None
  | x :: l' => if mem x l' then Some x else first_duplicate l'
  end.

Definition created_ddl (n : string) (defs : list (string * string)) : string :=
  "CREATE TABLE " ++ n ++ " ("
    ++ join ", " (map (fun d => fst d ++ " " ++ snd d) defs) ++ ")".

Definition exec_create (n : string) (defs : list (string * string)) : M cursor :=
  match defs with
  | [] => fail SyntaxError
  | _ =>
    db <- get ;;
    if table_exists n db then ret no_rows
    else match first_duplicate (map fst defs) with
    | Some c => fail (DuplicateColumn c)
    | None =>
      if Nat.ltb 1 (length (filter (fun d => is_rowid_alias (snd d)) defs))
      then fail (MultiplePrimaryKeys n)
      else
        let cols := map (fun d => mkColumn (fst d) (is_rowid_alias (snd d))) defs in
        put (db ++ [mkTable n (created_ddl n defs) cols []])%list ;;
        ret no_rows
    end
  end.

(** *** INSERT *)

Inductive rowid_choice : Type :=
| Automatic
| Explicit (z : Z).

(** The row identifier an assignment asks for: the value given to the alias
    column, when it is an integer. *)
Definition asked_rowid (t : table) (asg : dict value) : option rowid_choice :=
  match rowid_alias t with
  | None => Some Automatic
  | Some c =>
      match dict_get (col_name c) asg with
      | None => Some Automatic
      | Some VNull => Some Automatic
      | Some (VInt z) => Some (Explicit z)
      | Some _ => None
      end
  end.

Definition new_cells (t : table) (rid : Z) (asg : dict value) : list value :=
  map (fun c => if col_rowid c then VInt rid
                else match dict_get (col_name c) asg with
                     | Some v => v
                     | None => VNull
                     end) (tbl_cols t).

Definition exec_insert (n : string) (cols : list (string * string))
    (params : dict value) : M cursor :=
  match cols with
  | [] => fail SyntaxError
  | _ =>
    t <- the_table n ;;
    check_columns t (map fst cols) ;;
    asg <- bind_pairs cols params ;;
    choice <- expect (asked_rowid t asg) DatatypeMismatch ;;
    rid <- match choice with
           | Automatic => ret (next_rowid (tbl_rows t))
           | Explicit z => if existsb (Z.eqb z) (rowids t)
                           then fail (UniqueViolation n) else ret z
           end ;;
    store_rows n (insert_row (mkRow rid (new_cells t rid asg)) (tbl_rows t)) ;;
    ret (mkCursor [] [] rid)
  end.

(** *** SELECT * ... WHERE *)

Definition cell (t : table) (c : string) (r : row) : value :=
  match index_of c (col_names t) with
  | Some i => nth i (row_cells r) VNull
  | None => VNull
  end.

(** A row satisfies the conjunction of the conditions [column = value]. *)
Definition matches (t : table) (conds : dict value) (r : row) : bool :=
  forallb (fun cv => sql_eq (cell t (fst cv) r) (snd cv)) conds.

Definition exec_select (n : string) (conds : list (string * string))
    (params : dict value) : M cursor :=
  t <- the_table n ;;
  check_columns t (map fst conds) ;;
  want <- bind_pairs conds params ;;
  ret (mkCursor (col_names t)
                (map row_cells (filter (matches t want) (tbl_rows t))) 0).

(** *** UPDATE ... WHERE rowid = :p and DELETE ... WHERE rowid = :p *)

(** The cells of a row after the assignments [asg]. *)
Fixpoint assign_cells (cols : list column) (cells : list value) (asg : dict value)
  : list value :=
  match cols, cells with
  | c :: cols', v :: cells' =>
      match dict_get (col_name c) asg with
      | Some v' => v'
      | None => v
      end :: assign_cells cols' cells' asg
  | _, _ => cells
  end.

(** The row identifier of a row after the assignments: an assignment to the
    alias column moves the row. *)
Definition moved_rowid (t : table) (asg : dict value) (rid : Z) : option Z :=
  match rowid_alias t with
  | None => Some rid
  | Some c =>
      match dict_get (col_name c) asg with
      | None => Some rid
      | Some (VInt z) => Some z
      | Some _ => None
      end
  end.

Definition exec_update (n : string) (sets : list (string * string)) (wparam : string)
    (params : dict value) : M cursor :=
  match sets with
  | [] => fail SyntaxError
  | _ =>
    t <- the_table n ;;
    check_columns t (map fst sets) ;;
    asg <- bind_pairs sets params ;;
    key <- bound wparam params ;;
    match key with
    | VInt rid =>
        match find_row rid (tbl_rows t) with
        | None => ret no_rows
        | Some r =>
            rid' <- expect (moved_rowid t asg rid) DatatypeMismatch ;;
            let others := remove_row rid (tbl_rows t) in
            if existsb (Z.eqb rid') (map row_id others)
            then fail (UniqueViolation n)
            else
              store_rows n (insert_row
                 (mkRow rid' (assign_cells (tbl_cols t) (row_cells r) asg)) others) ;;
              ret no_rows
        end
    | _ => ret no_rows
    end
  end.

Definition exec_delete (n : string) (wparam : string) (params : dict value) : M cursor :=
  t <- the_table n ;;
  key <- bound wparam params ;;
  match key with
  | VInt rid => store_rows n (remove_row rid (tbl_rows t)) ;; ret no_rows
  | _ => ret no_rows
  end.

(** *** DROP TABLE, ALTER TABLE ... RENAME TO *)

Definition exec_drop (if_exists : bool) (n : string) : M cursor :=
  db <- get ;;
  if table_exists n db then put (remove_table n db) ;; ret no_rows
  else if if_exists then ret no_rows
  else fail (NoSuchTable n).

Definition exec_rename {wording : EngineText} (old new : string) : M cursor :=
  the_table old ;;
  db <- get ;;
  if table_exists new db then fail (TableExists new)
  else
    put (update_table old
           (fun t => mkTable new (rename_ddl (tbl_sql t) new) (tbl_cols t) (tbl_rows t)) db) ;;
    ret no_rows.

(** *** ALTER TABLE ... ADD COLUMN

    The rows that exist read NULL in the new column. *)

Definition exec_add_column {wording : EngineText} (n c ty : string) : M cursor :=
  t <- the_table n ;;
  if mem c (col_names t) then fail (DuplicateColumn c)
  else if is_rowid_alias ty then fail CannotAddPrimaryKey
  else
    db <- get ;;
    put (update_table n
           (fun t => mkTable (tbl_name t) (add_column_ddl (tbl_sql t) c ty)
                       (tbl_cols t ++ [mkColumn c false])%list
                       (map (fun r => mkRow (row_id r) (row_cells r ++ [VNull])%list)
                            (tbl_rows t))) db) ;;
    ret no_rows.

(** *** CREATE TABLE ... AS SELECT *)

(** A result column whose name is taken already gets the suffix [:1], [:2],
    ...; after the fourth attempt the engine draws the number at random. *)
Definition fresh_name (used : list string) (z : string) : option string :=
  if mem z used
  then find (fun c => negb (mem c used)) [z ++ ":1"; z ++ ":2"; z ++ ":3"; z ++ ":4"]
  else Some z.

Fixpoint result_names (used : list string) (l : list string) : option (list string) :=
  match l with
  | [] => Some []
  | z :: l' =>
      match fresh_name used z with
      | Some z' => option_map (cons z') (result_names (z' :: used) l')
      | None => None
      end
  end.

Definition proj_name (p : string * option string) : string :=
  match snd p with
  | Some a => a
  | None => fst p
  end.

(** The copied rows are numbered from 1 in the order of the scan. *)
Fixpoint number_rows (next : Z) (l : list (list value)) : list row :=
  match l with
  | [] => []
  | cells :: l' => mkRow next cells :: number_rows (next + 1) l'
  end.

Definition exec_create_as {wording : EngineText} (new : string)
    (proj : list (string * option string)) (src : string) : M cursor :=
  db <- get ;;
  if table_exists new db then fail (TableExists new)
  else match proj with
  | [] => fail SyntaxError
  | _ =>
    t <- the_table src ;;
    check_columns t (map fst proj) ;;
    names <- expect (result_names [] (map proj_name proj)) UndeterminedName ;;
    let copied := map (fun r => map (fun p => cell t (fst p) r) proj) (tbl_rows t) in
    put (db ++ [mkTable new (ctas_ddl t new names)
                        (map (fun n => mkColumn n false) names)
                        (number_rows 1 copied)])%list ;;
    ret no_rows
  end.

(** *** PRAGMA table_info and the catalog table

    Of a [table_info] row only [cid] and [name] are kept, the facade reads
    [name] alone.  A table that does not exist has no rows. *)

Fixpoint table_info_rows (cid : Z) (cols : list column) : list (list value) :=
  match cols with
  | [] => []
  | c :: cols' => [VInt cid; VText (col_name c)] :: table_info_rows (cid + 1) cols'
  end.

Definition exec_table_info (n : string) : M cursor :=
  db <- get ;;
  match find_table n db with
  | Some t => ret (mkCursor ["cid"; "name"] (table_info_rows 0 (tbl_cols t)) 0)
  | None => ret (mkCursor ["cid"; "name"] [] 0)
  end.

Definition exec_master_names : M cursor :=
  db <- get ;;
  ret (mkCursor ["name"] (map (fun t => [VText (tbl_name t)]) db) 0).

Definition exec_master_sql (n : string) : M cursor :=
  db <- get ;;
  ret (mkCursor ["sql"] (map (fun t => [VText (tbl_sql t)]) (filter (has_name n) db)) 0).

(** *** [conn.execute(sql, params)] *)

Definition execute {wording : EngineText} (s : stmt) (params : dict value) : M cursor :=
  match s with
  | SCreateTableIfNotExists n defs => exec_create n defs
  | SInsert n cols => exec_insert n cols params
  | SSelectAll n conds => exec_select n conds params
  | SUpdateByRowid n sets w => exec_update n sets w params
  | SDeleteByRowid n w => exec_delete n w params
  | SDropTable ie n => exec_drop ie n
  | SCreateTableAs new proj src => exec_create_as new proj src
  | SRenameTable old new => exec_rename old new
  | SAddColumn n c ty => exec_add_column n c ty
  | SPragmaTableInfo n => exec_table_info n
  | SMasterNames => exec_master_names
  | SMasterSql n => exec_master_sql n
  end.

(** [cursor.fetchall()] and [cursor.fetchone()] under a row factory. *)
Definition fetchall {A} (row_factory : cursor -> list value -> A) (c : cursor) : list A :=
  map (row_factory c) (tuples c).

Definition fetchone {A} (row_factory : cursor -> list value -> A) (c : cursor) : option A :=
  match tuples c with
  | [] => None
  | r :: _ => Some (row_factory c r)
  end.

End Engine.

(** ** The facade: [server.py] *)

Module Server.
Import Engine.

(** The result envelopes, one record per shape of returned dictionary. *)
Record create_table_result : Type := {
  ct_status : string; ct_table : string; ct_columns : dict string; ct_sql : string }.
Record insert_record_result : Type := {
  ir_status : string; ir_record_id : Z; ir_data : dict value; ir_sql : string }.
Record update_record_result : Type := {
  ur_status : string; ur_record_id : Z; ur_data : dict value; ur_sql : string }.
Record delete_record_result : Type := {
  dr_status : string; dr_record_id : Z; dr_sql : string }.

Definition newline : string := String (ascii_of_nat 10) EmptyString.

Section Facade.
Context {wording : EngineText}.

(** [conn.execute(sql, params)]: the engine runs the statement that the text
    [sql] spells; a text that does not spell it is refused. *)
Definition conn_execute (sql : string) (parsed : stmt) (params : dict value) : M cursor :=
  if String.eqb sql (sql_text parsed) then execute parsed params
  else fail SyntaxError.

Definition enumerate {A} (l : list A) : list (nat * A) := combine (seq 0 (length l)) l.

(** [dict_factory(cursor, row)] *)
Definition dict_factory (cursor : cursor) (row : list value) : dict value :=
  fold_left (fun d ic => dict_set (snd ic) (nth (fst ic) row VNull) d)
            (enumerate (description cursor)) [].

(** [row[k]] where a [str] is needed. *)
Definition str_item (k : string) (row : dict value) : M string :=
  match dict_get k row with
  | Some (VText s) => ret s
  | Some _ => raise TypeError
  | None => raise (KeyError k)
  end.

(** The tools.  Each opens the connection, runs its statements, commits and
    closes; a raised exception leaves through [finally: conn.close()]. *)

Definition ping : string := "Pong!".

Definition create_table (table_name : string) (columns : dict string)
  : M create_table_result :=
  let column_defs := map (fun item => fst item ++ " " ++ snd item) columns in
  let sql := "CREATE TABLE IF NOT EXISTS " ++ table_name
               ++ " (" ++ join ", " column_defs ++ ")" in
  conn_execute sql (SCreateTableIfNotExists table_name columns) [] ;;
  ret {| ct_status := "success"; ct_table := table_name;
         ct_columns := columns; ct_sql := sql |}.

Definition insert_record (table_name : string) (data : dict value)
  : M insert_record_result :=
  let columns := keys data in
  let placeholders := map (fun col => ":" ++ col) columns in
  let sql := "INSERT INTO " ++ table_name ++ " (" ++ join ", " columns
               ++ ") VALUES (" ++ join ", " placeholders ++ ")" in
  cursor <- conn_execute sql (SInsert table_name (map (fun col => (col, col)) columns)) data ;;
  ret {| ir_status := "success"; ir_record_id := lastrowid cursor;
         ir_data := data; ir_sql := sql |}.

(** [if filters:] holds for a mapping that is given and not empty. *)
Definition get_records (table_name : string) (filters : option (dict value))
  : M (list (dict value)) :=
  let sql := "SELECT * FROM " ++ table_name in
  let params : dict value := [] in
  let '(sql, params, conds) :=
    match filters with
    | Some ((_ :: _) as filters) =>
        let conditions := map (fun item => fst item ++ " = :" ++ fst item) filters in
        let params := fold_left (fun p item => dict_set (fst item) (snd item) p)
                                filters params in
        (sql ++ " WHERE " ++ join " AND " conditions, params,
         map (fun item => (fst item, fst item)) filters)
    | _ => (sql, params, [])
    end in
  cursor <- conn_execute sql (SSelectAll table_name conds) params ;;
  ret (fetchall dict_factory cursor).

(** [params = data.copy()] followed by [params["record_id"] = record_id]. *)
Definition update_record (table_name : string) (record_id : Z) (data : dict value)
  : M update_record_result :=
  let set_clauses := map (fun col => col ++ " = :" ++ col) (keys data) in
  let sql := "UPDATE " ++ table_name ++ " SET " ++ join ", " set_clauses
               ++ " WHERE rowid = :record_id" in
  let params := data in
  let params := dict_set "record_id" (VInt record_id) params in
  conn_execute sql
    (SUpdateByRowid table_name (map (fun col => (col, col)) (keys data)) "record_id")
    params ;;
  ret {| ur_status := "success"; ur_record_id := record_id;
         ur_data := data; ur_sql := sql |}.

Definition delete_record (table_name : string) (record_id : Z)
  : M delete_record_result :=
  let sql := "DELETE FROM " ++ table_name ++ " WHERE rowid = :record_id" in
  conn_execute sql (SDeleteByRowid table_name "record_id")
               [("record_id", VInt record_id)] ;;
  ret {| dr_status := "success"; dr_record_id := record_id; dr_sql := sql |}.

Definition drop_table (table_name : string) : M string :=
  let sql := "DROP TABLE IF EXISTS " ++ table_name in
  conn_execute sql (SDropTable true table_name) [] ;;
  ret sql.

Definition add_column (table_name column_name column_type : string) : M string :=
  let sql := "ALTER TABLE " ++ table_name ++ " ADD COLUMN " ++ column_name
               ++ " " ++ column_type in
  conn_execute sql (SAddColumn table_name column_name column_type) [] ;;
  ret sql.

(** The copy-rebuild sequence: the column names from PRAGMA table_info
    without [column_name], the shadow table, DROP TABLE, RENAME TO. *)
Definition drop_column (table_name column_name : string) : M string :=
  cursor <- conn_execute ("PRAGMA table_info(" ++ table_name ++ ")")
                         (SPragmaTableInfo table_name) [] ;;
  names <- mapM (str_item "name") (fetchall dict_factory cursor) ;;
  let columns := filter (fun name => negb (String.eqb name column_name)) names in
  let temp_table := table_name ++ "_new" in
  let create_sql := "CREATE TABLE " ++ temp_table ++ " AS SELECT "
                      ++ join ", " columns ++ " FROM " ++ table_name in
  conn_execute create_sql
    (SCreateTableAs temp_table (map (fun c => (c, None)) columns) table_name) [] ;;
  conn_execute ("DROP TABLE " ++ table_name) (SDropTable false table_name) [] ;;
  conn_execute ("ALTER TABLE " ++ temp_table ++ " RENAME TO " ++ table_name)
               (SRenameTable temp_table table_name) [] ;;
  ret ("ALTER TABLE " ++ table_name ++ " DROP COLUMN " ++ column_name).

Definition rename_table (old_name new_name : string) : M string :=
  let sql := "ALTER TABLE " ++ old_name ++ " RENAME TO " ++ new_name in
  conn_execute sql (SRenameTable old_name new_name) [] ;;
  ret sql.

(** The same sequence with [old_name AS new_name] in the projection. *)
Definition rename_column (table_name old_name new_name : string) : M string :=
  cursor <- conn_execute ("PRAGMA table_info(" ++ table_name ++ ")")
                         (SPragmaTableInfo table_name) [] ;;
  names <- mapM (str_item "name") (fetchall dict_factory cursor) ;;
  let columns := map (fun name => if String.eqb name old_name
                                  then name ++ " AS " ++ new_name
                                  else name) names in
  let temp_table := table_name ++ "_new" in
  let create_sql := "CREATE TABLE " ++ temp_table ++ " AS SELECT "
                      ++ join ", " columns ++ " FROM " ++ table_name in
  conn_execute create_sql
    (SCreateTableAs temp_table
       (map (fun name => if String.eqb name old_name
                         then (name, Some new_name) else (name, None)) names)
       table_name) [] ;;
  conn_execute ("DROP TABLE " ++ table_name) (SDropTable false table_name) [] ;;
  conn_execute ("ALTER TABLE " ++ temp_table ++ " RENAME TO " ++ table_name)
               (SRenameTable temp_table table_name) [] ;;
  ret ("ALTER TABLE " ++ table_name ++ " RENAME COLUMN " ++ old_name
         ++ " TO " ++ new_name).

(** The table names of the catalog, then one query per name for its DDL. *)
Definition get_schema : M string :=
  cursor <- conn_execute "SELECT name FROM sqlite_master WHERE type='table'"
                         SMasterNames [] ;;
  tables <- mapM (str_item "name") (fetchall dict_factory cursor) ;;
  schemas <- mapM (fun table =>
      cursor <- conn_execute
        ("SELECT sql FROM sqlite_master WHERE type='table' AND name='" ++ table ++ "'")
        (SMasterSql table) [] ;;
      match fetchone dict_factory cursor with
      | Some row => str_item "sql" row
      | None => raise TypeError
      end) tables ;;
  ret (join (";" ++ newline) schemas).

End Facade.
End Server.

(** * Properties of the facade *)

Import Engine Server.

(** ** Vocabulary of the statements *)

(** A wording of the engine's own DDL, to run the model on examples: the
    shadow table lists its column names, a renamed table carries its new name
    in double quotes, an added column goes before the closing parenthesis. *)
Module ExampleWording.

Definition dquote : string := String (ascii_of_nat 34) EmptyString.

(** The text from the first space or parenthesis on. *)
Fixpoint after_name (s : string) : string :=
  match s with
  | EmptyString => EmptyString
  | String c s' =>
      if (Ascii.eqb c " " || Ascii.eqb c "(")%bool then s else after_name s'
  end.

(** The text after [CREATE TABLE ]. *)
Definition after_create_table (s : string) : string :=
  String.substring 13 (String.length s - 13) s.

(** The text without its last character. *)
Definition without_last (s : string) : string :=
  String.substring 0 (String.length s - 1) s.

End ExampleWording.

Definition example_wording : EngineText := {|
  ctas_ddl := fun _ n cols => "CREATE TABLE " ++ n ++ "(" ++ join "," cols ++ ")";
  rename_ddl := fun old n =>
    "CREATE TABLE " ++ ExampleWording.dquote ++ n ++ ExampleWording.dquote
      ++ ExampleWording.after_name (ExampleWording.after_create_table old);
  add_column_ddl := fun old c ty =>
    ExampleWording.without_last old ++ ", " ++ c ++ " " ++ ty ++ ")"
|}.

(** The table of the tests: [{id, name, age}]. *)
Definition people_columns : dict string :=
  [("id", "INTEGER PRIMARY KEY"); ("name", "TEXT"); ("age", "INTEGER")].

Definition john : dict value := [("name", VText "John Doe"); ("age", VInt 30)].

Section Vocabulary.
Context {wording : EngineText}.

(** *** Well-formed databases

    What every database the facade can build satisfies: no two tables share
    a name; a table has a column, no two of its columns share a name, and
    each of its rows has one cell per column. *)

Definition wf_table (t : table) : bool :=
  match tbl_cols t with [] => false | _ :: _ => true end
  && nodupb (col_names t)
  && forallb (fun r => Nat.eqb (length (row_cells r)) (length (tbl_cols t))) (tbl_rows t).

Definition wf_db (db : database) : bool :=
  nodupb (map tbl_name db) && forallb wf_table db.

(** A computation keeps the database well-formed, whatever its outcome. *)
Definition preserves {A} (m : M A) : Prop :=
  forall db r db', wf_db db = true -> m db = (r, db') -> wf_db db' = true.

(** A computation leaves the database as it is. *)
Definition reads {A} (m : M A) : Prop :=
  forall db r db', m db = (r, db') -> db' = db.

(** *** What the calls return and store *)


(** The catalog entry a CREATE TABLE makes. *)
Definition new_table (table_name : string) (columns : dict string) : table :=
  mkTable table_name (created_ddl table_name columns)
          (map (fun d => mkColumn (fst d) (is_rowid_alias (snd d))) columns) [].



Definition update_sql (table_name : string) (data : dict value) : string :=
  "UPDATE " ++ table_name ++ " SET "
    ++ join ", " (map (fun col => col ++ " = :" ++ col) (keys data))
    ++ " WHERE rowid = :record_id".

Definition update_envelope (table_name : string) (record_id : Z) (data : dict value)
  : update_record_result :=
  {| ur_status := "success"; ur_record_id := record_id; ur_data := data;
     ur_sql := update_sql table_name data |}.





(** One pass of the loop: the stored DDL of the table called [n]. *)
Definition stored_ddl (n : string) : M string :=
  cursor <- conn_execute
    ("SELECT sql FROM sqlite_master WHERE type='table' AND name='" ++ n ++ "'")
    (SMasterSql n) [] ;;
  match fetchone dict_factory cursor with
  | Some row => str_item "sql" row
  | None => raise TypeError
  end.

(** *** Rows as dictionaries and filters *)



(** *** The copy-rebuild sequence *)

(** The rows of the shadow table: the projected cells, numbered from 1. *)
Definition shadow_rows (t : table) (proj : list (string * option string)) : list row :=
  number_rows 1 (map (fun r => map (fun p => cell t (fst p) r) proj) (tbl_rows t)).

Definition shadow (t : table) (new : string) (proj : list (string * option string))
    (names : list string) : table :=
  mkTable new (ctas_ddl t new names) (map (fun n => mkColumn n false) names)
          (shadow_rows t proj).

(** The table that takes the place of [t]. *)
Definition rebuilt (t : table) (proj : list (string * option string))
    (names : list string) : table :=
  let s := shadow t (tbl_name t ++ "_new") proj names in
  mkTable (tbl_name t) (rename_ddl (tbl_sql s) (tbl_name t)) (tbl_cols s) (tbl_rows s).

Definition keep_all_but (column_name : string) (names : list string) : list string :=
  filter (fun name => negb (String.eqb name column_name)) names.


Definition dropping (column_name : string) (t : table) : list (string * option string) :=
  map (fun c => (c, None)) (keep_all_but column_name (col_names t)).


Definition rebuild_outcome (db : database) (table_name : string) (t : table)
    (proj : list (string * option string)) (s : string) : result string * database :=
  if table_exists (table_name ++ "_new") db
  then (Raise (SqliteError (TableExists (table_name ++ "_new"))), db)
  else match proj with
  | [] => (Raise (SqliteError SyntaxError), db)
  | _ :: _ =>
    match unknown_column t (map fst proj) with
    | Some c => (Raise (SqliteError (NoSuchColumn c)), db)
    | None =>
      match result_names [] (map proj_name proj) with
      | None => (Raise (SqliteError UndeterminedName), db)
      | Some names => (Ok s, (remove_table table_name db ++ [rebuilt t proj names])%list)
      end
    end
  end.

(** *** Readings of the specification that the code does not follow *)



(** The reading of the specification: positional placeholders. *)
Definition positional_update_sql (table_name : string) (data : dict value) : string :=
  "UPDATE " ++ table_name ++ " SET "
    ++ join ", " (map (fun col => col ++ " = ?") (keys data))
    ++ " WHERE rowid = ?".

Definition update_sql_claim_as_stated {wording : EngineText}
    (db : database) (table_name : string) (record_id : Z) (data : dict value) : Prop :=
  forall r db',
    update_record table_name record_id data db = (Ok r, db') ->
    ur_sql r = positional_update_sql table_name data.


(** *** Example databases *)

Definition people_ddl : string :=
  "CREATE TABLE test_table (id INTEGER PRIMARY KEY, name TEXT, age INTEGER)".

Definition people_cols : list column :=
  [mkColumn "id" true; mkColumn "name" false; mkColumn "age" false].

(** The three rows of the filter test: ages 30, 25, 30. *)
Definition people_table : table :=
  mkTable "test_table" people_ddl people_cols
     [mkRow 1 [VInt 1; VText "John Doe"; VInt 30];
      mkRow 2 [VInt 2; VText "Jane Smith"; VInt 25];
      mkRow 3 [VInt 3; VText "Bob Johnson"; VInt 30]].

Definition people : database := [people_table].

(** One row, inserted without an age. *)
Definition people_unknown_age : database :=
  [mkTable "test_table" people_ddl people_cols
     [mkRow 1 [VInt 1; VText "Jane Smith"; VNull]]].

Definition birthday : dict value := [("age", VInt 26)].

Definition people_after_birthday : database :=
  [mkTable "test_table" people_ddl people_cols
     [mkRow 1 [VInt 1; VText "John Doe"; VInt 30];
      mkRow 2 [VInt 2; VText "Jane Smith"; VInt 26];
      mkRow 3 [VInt 3; VText "Bob Johnson"; VInt 30]]].

Definition people_without_age : database :=
  [mkTable "test_table"
     ("CREATE TABLE " ++ ExampleWording.dquote ++ "test_table" ++ ExampleWording.dquote
        ++ "(id,name)")
     [mkColumn "id" false; mkColumn "name" false]
     [mkRow 1 [VInt 1; VText "John Doe"];
      mkRow 2 [VInt 2; VText "Jane Smith"];
      mkRow 3 [VInt 3; VText "Bob Johnson"]]].

Definition people_full_name : database :=
  [mkTable "test_table"
     ("CREATE TABLE " ++ ExampleWording.dquote ++ "test_table" ++ ExampleWording.dquote
        ++ "(id,full_name,age)")
     [mkColumn "id" false; mkColumn "full_name" false; mkColumn "age" false]
     [mkRow 1 [VInt 1; VText "John Doe"; VInt 30];
      mkRow 2 [VInt 2; VText "Jane Smith"; VInt 25];
      mkRow 3 [VInt 3; VText "Bob Johnson"; VInt 30]]].

Definition people_rebuilt : database :=
  [mkTable "test_table"
     ("CREATE TABLE " ++ ExampleWording.dquote ++ "test_table" ++ ExampleWording.dquote
        ++ "(id,name,age)")
     [mkColumn "id" false; mkColumn "name" false; mkColumn "age" false]
     [mkRow 1 [VInt 1; VText "John Doe"; VInt 30];
      mkRow 2 [VInt 2; VText "Jane Smith"; VInt 25];
      mkRow 3 [VInt 3; VText "Bob Johnson"; VInt 30]]].

(** A table with a column called [record_id]. *)
Definition tickets_table : table :=
  mkTable "tickets" "CREATE TABLE tickets (record_id INTEGER, note TEXT)"
    [mkColumn "record_id" false; mkColumn "note" false]
    [mkRow 1 [VInt 100; VText "open"]; mkRow 2 [VInt 200; VText "open"]].

Definition tickets : database := [tickets_table].

Definition close_ticket : dict value := [("record_id", VInt 999); ("note", VText "closed")].

Definition tickets_after : database :=
  [mkTable "tickets" "CREATE TABLE tickets (record_id INTEGER, note TEXT)"
    [mkColumn "record_id" false; mkColumn "note" false]
    [mkRow 1 [VInt 100; VText "open"]; mkRow 2 [VInt 2; VText "closed"]]].


Definition pairs_table : table :=
  mkTable "pairs" "CREATE TABLE pairs (a INTEGER, b INTEGER)"
          [mkColumn "a" false; mkColumn "b" false]
          [mkRow 1 [VInt 1; VInt 2]].

Definition pairs : database := [pairs_table].




(** *** Further vocabulary: outcomes of a call *)






(** *** Rows in the order of their identifiers *)

Fixpoint increasing (l : list Z) : bool :=
  match l with
  | [] => true
  | x :: l' => match l' with
               | [] => true
               | y :: _ => Z.ltb x y && increasing l'
               end
  end.

(** The rows of every table are stored by increasing row identifier: a table
    scan returns them in that order, and no identifier names two rows. *)
Definition rows_in_order (db : database) : bool :=
  forallb (fun t => increasing (rowids t)) db.

Definition keeps_order {A} (m : M A) : Prop :=
  forall db r db', rows_in_order db = true -> m db = (r, db') -> rows_in_order db' = true.

(** *** What the schema tools leave *)




End Vocabulary.

(** ** Running the connection monad *)

Lemma bind_ok {A B} (m : M A) (k : A -> M B) db a db1 :
  m db = (Ok a, db1) -> bind m k db = k a db1.
Proof. intros E. unfold bind. rewrite E. reflexivity. Qed.

(** A computation that ends well went through each of its steps. *)
Lemma bind_inv {A B} (m : M A) (k : A -> M B) db b db2 :
  bind m k db = (Ok b, db2) ->
  exists a db1, m db = (Ok a, db1) /\ k a db1 = (Ok b, db2).
Proof.
  unfold bind. destruct (m db) as [[a | e] db1]; intros E.
  - exists a, db1. split; [reflexivity | exact E].
  - discriminate E.
Qed.


Lemma ret_inv {A} (a b : A) db db' : ret a db = (Ok b, db') -> a = b /\ db = db'.
Proof. unfold ret. intros E. inversion E. split; reflexivity. Qed.

Lemma expect_inv {A} (o : option A) e a db db' :
  expect o e db = (Ok a, db') -> o = Some a /\ db = db'.
Proof.
  destruct o as [x |]; unfold expect, ret, fail, raise; intros E; inversion E.
  split; reflexivity.
Qed.

(** ** The text of the generated statements *)



Section Spelling.
Context {wording : EngineText}.

Lemma conn_execute_spelled sql parsed params :
  sql = sql_text parsed -> conn_execute sql parsed params = execute parsed params.
Proof. intros ->. unfold conn_execute. rewrite String.eqb_refl. reflexivity. Qed.


Lemma update_spelled table_name (columns : list string) :
  "UPDATE " ++ table_name ++ " SET "
     ++ join ", " (map (fun col => col ++ " = :" ++ col) columns)
     ++ " WHERE rowid = :record_id"
  = sql_text (SUpdateByRowid table_name (map (fun col => (col, col)) columns) "record_id").
Proof. unfold sql_text. rewrite map_map. reflexivity. Qed.



Lemma create_as_spelled temp_table table_name (columns : list string) :
  "CREATE TABLE " ++ temp_table ++ " AS SELECT " ++ join ", " columns
     ++ " FROM " ++ table_name
  = sql_text (SCreateTableAs temp_table (map (fun c => (c, None)) columns) table_name).
Proof.
  unfold sql_text. rewrite map_map. unfold proj_text. simpl. rewrite map_id. reflexivity.
Qed.


End Spelling.

(** ** The catalog *)

Lemma has_name_true n t : has_name n t = true <-> tbl_name t = n.
Proof. unfold has_name. apply String.eqb_eq. Qed.

Lemma has_name_false n t : has_name n t = false <-> tbl_name t <> n.
Proof. unfold has_name. apply String.eqb_neq. Qed.

Lemma table_exists_find n db :
  table_exists n db = match find_table n db with Some _ => true | None => false end.
Proof.
  unfold table_exists, find_table.
  induction db as [| t db IH]; simpl; [reflexivity |].
  destruct (has_name n t); simpl; [reflexivity | exact IH].
Qed.

Lemma find_table_name n db t : find_table n db = Some t -> tbl_name t = n.
Proof.
  unfold find_table. intros E. apply find_some in E. destruct E as [_ E].
  apply has_name_true. exact E.
Qed.

Lemma find_table_In n db t : find_table n db = Some t -> In t db.
Proof. unfold find_table. intros E. apply find_some in E. tauto. Qed.

Lemma find_table_app_found n db l t :
  find_table n db = Some t -> find_table n (db ++ l)%list = Some t.
Proof.
  unfold find_table. induction db as [| t0 db IH]; simpl; intros E; [discriminate E |].
  destruct (has_name n t0); [exact E | apply IH; exact E].
Qed.

Lemma find_table_app_fresh n db t :
  find_table n db = None -> tbl_name t = n -> find_table n (db ++ [t])%list = Some t.
Proof.
  unfold find_table. intros E N.
  induction db as [| t0 db IH]; simpl in *.
  - apply has_name_true in N. rewrite N. reflexivity.
  - destruct (has_name n t0); [discriminate E | apply IH; exact E].
Qed.

Lemma find_table_app_other n db t :
  tbl_name t <> n -> find_table n (db ++ [t])%list = find_table n db.
Proof.
  unfold find_table. intros N.
  induction db as [| t0 db IH]; simpl.
  - apply has_name_false in N. rewrite N. reflexivity.
  - destruct (has_name n t0); [reflexivity | exact IH].
Qed.

Lemma update_table_app_fresh n f db t :
  find_table n db = None -> tbl_name t = n ->
  update_table n f (db ++ [t])%list = (db ++ [f t])%list.
Proof.
  unfold find_table. intros E N.
  induction db as [| t0 db IH]; simpl in *.
  - apply has_name_true in N. rewrite N. reflexivity.
  - destruct (has_name n t0); [discriminate E |]. rewrite IH by exact E. reflexivity.
Qed.




Lemma the_table_run n db t : find_table n db = Some t -> the_table n db = (Ok t, db).
Proof. intros E. unfold the_table, bind, get. rewrite E. reflexivity. Qed.

Lemma the_table_inv n db t db' :
  the_table n db = (Ok t, db') -> find_table n db = Some t /\ db' = db.
Proof.
  unfold the_table, bind, get. destruct (find_table n db) as [t0 |]; simpl.
  - unfold ret. intros E. inversion E. split; reflexivity.
  - unfold fail, raise. intros E. discriminate E.
Qed.


(** ** create_table *)

Section CreateTable.
Context {wording : EngineText}.



(** Whatever the first call did, returned or raised, a second call with the
    same arguments leaves the database as the first one left it. *)
Lemma create_table_again_changes_nothing db table_name columns r1 db1 :
  create_table table_name columns db = (r1, db1) ->
  exists r2, create_table table_name columns db1 = (r2, db1).
Proof.
  intros Run.
  unfold create_table in *. rewrite conn_execute_spelled in * by reflexivity.
  unfold execute, exec_create in *.
  destruct columns as [| item columns].
  - inversion Run; subst. eexists. reflexivity.
  - unfold bind at 1 in Run. unfold bind at 1 in Run. unfold get in Run.
    unfold bind at 1. unfold bind at 1. unfold get.
    destruct (table_exists table_name db) eqn:X.
    + inversion Run; subst. rewrite X. eexists. reflexivity.
    + destruct (first_duplicate (map fst (item :: columns))).
      * inversion Run; subst. rewrite X. eexists. reflexivity.
      * destruct (Nat.ltb 1 _).
        -- inversion Run; subst. rewrite X. eexists. reflexivity.
        -- unfold bind, put, ret in Run. inversion Run; subst.
           assert (Y : table_exists table_name
                         (db ++ [new_table table_name (item :: columns)])%list = true).
           { rewrite table_exists_find.
             rewrite (find_table_app_fresh table_name db
                        (new_table table_name (item :: columns))); [reflexivity | | reflexivity].
             rewrite table_exists_find in X.
             destruct (find_table table_name db); [discriminate X | reflexivity]. }
           unfold new_table in Y. simpl in Y. simpl. rewrite Y. eexists. reflexivity.
Qed.

(** An empty column mapping makes no statement the engine accepts. *)
Lemma create_table_without_columns db table_name :
  create_table table_name [] db = (Raise (SqliteError SyntaxError), db).
Proof.
  unfold create_table. rewrite conn_execute_spelled by reflexivity. reflexivity.
Qed.


End CreateTable.


(** ** Dictionaries *)

Section DictFacts.
Context {V : Type}.
Implicit Types (d : dict V) (k : string) (v : V).





(** A new key goes last. *)
Lemma dict_set_fresh k v d : ~ In k (keys d) -> dict_set k v d = (d ++ [(k, v)])%list.
Proof.
  induction d as [| [k0 v0] d IH]; simpl; intros N; [reflexivity |].
  destruct (String.eqb k k0) eqn:E.
  - apply String.eqb_eq in E. subst. tauto.
  - rewrite IH by tauto. reflexivity.
Qed.


End DictFacts.

(** ** Well-formed databases *)

Lemma mem_In s l : mem s l = true <-> In s l.
Proof.
  unfold mem. rewrite existsb_exists. split.
  - intros (x & I & E). apply String.eqb_eq in E. subst. exact I.
  - intros I. exists s. split; [exact I | apply String.eqb_refl].
Qed.

Lemma mem_false s l : mem s l = false <-> ~ In s l.
Proof.
  rewrite <- mem_In. destruct (mem s l); split; intros; congruence.
Qed.

Lemma nodupb_NoDup l : nodupb l = true <-> NoDup l.
Proof.
  induction l as [| x l IH]; simpl.
  - split; [constructor | reflexivity].
  - rewrite andb_true_iff, negb_true_iff, mem_false, IH. split.
    + intros [N D]. constructor; assumption.
    + intros D. inversion D; subst. tauto.
Qed.

Lemma first_duplicate_none l : first_duplicate l = None <-> NoDup l.
Proof.
  induction l as [| x l IH]; simpl.
  - split; [constructor | reflexivity].
  - destruct (mem x l) eqn:E.
    + apply mem_In in E. split; [discriminate |].
      intros D. inversion D; subst. contradiction.
    + apply mem_false in E. rewrite IH. split.
      * intros D. constructor; assumption.
      * intros D. inversion D; subst. assumption.
Qed.

Lemma wf_db_table db n t : wf_db db = true -> find_table n db = Some t -> wf_table t = true.
Proof.
  unfold wf_db. rewrite andb_true_iff. intros [_ W] F.
  rewrite forallb_forall in W. apply W. apply (find_table_In _ _ _ F).
Qed.

Lemma wf_table_cols t : wf_table t = true -> NoDup (col_names t).
Proof.
  unfold wf_table. rewrite !andb_true_iff. intros [[_ D] _]. apply nodupb_NoDup. exact D.
Qed.


Lemma wf_table_row t r :
  wf_table t = true -> In r (tbl_rows t) -> length (row_cells r) = length (col_names t).
Proof.
  unfold wf_table. rewrite !andb_true_iff. intros [_ L] I.
  rewrite forallb_forall in L. specialize (L r I). apply Nat.eqb_eq in L.
  unfold col_names. rewrite length_map. exact L.
Qed.

(** ** Bound parameters and column checks *)







(** ** Rows as dictionaries *)

Lemma skipn_cons_nth {A} (d : A) k (l : list A) :
  k < length l -> skipn k l = nth k l d :: skipn (S k) l.
Proof.
  revert l. induction k as [| k IH]; intros [| x l] L; simpl in *; try lia.
  - reflexivity.
  - apply IH. lia.
Qed.

Lemma dict_factory_fold (desc : list string) (row : list value) k (acc : dict value) :
  NoDup (keys acc ++ desc) -> k + length desc <= length row ->
  fold_left (fun d ic => dict_set (snd ic) (nth (fst ic) row VNull) d)
            (combine (seq k (length desc)) desc) acc
  = (acc ++ combine desc (skipn k row))%list.
Proof.
  revert k acc. induction desc as [| c desc IH]; intros k acc N L; simpl in *.
  - rewrite app_nil_r. reflexivity.
  - assert (Fresh : ~ In c (keys acc)).
    { apply NoDup_remove_2 in N. intros I. apply N. apply in_or_app. left. exact I. }
    rewrite dict_set_fresh by exact Fresh.
    rewrite IH.
    + rewrite (skipn_cons_nth VNull k row) by lia.
      rewrite <- app_assoc. reflexivity.
    + unfold keys in *. rewrite map_app. simpl. rewrite <- app_assoc. exact N.
    + lia.
Qed.

Lemma dict_factory_combine (c : cursor) (row : list value) :
  NoDup (description c) -> length row = length (description c) ->
  dict_factory c row = combine (description c) row.
Proof.
  intros N L. unfold dict_factory, enumerate.
  rewrite dict_factory_fold; [reflexivity | exact N | lia].
Qed.


(** The cell of a column is what the row's dictionary holds under its name. *)
Lemma dict_get_combine (names : list string) (cells : list value) c :
  length cells = length names -> In c names ->
  dict_get c (combine names cells)
  = Some (match index_of c names with
          | Some i => nth i cells VNull
          | None => VNull
          end).
Proof.
  revert cells. induction names as [| n names IH]; intros cells L I; simpl in *; [tauto |].
  destruct cells as [| v cells]; simpl in *; [discriminate L |].
  destruct (String.eqb c n) eqn:E; [reflexivity |].
  apply String.eqb_neq in E.
  rewrite IH; [| lia | destruct I; [congruence | assumption]].
  destruct (index_of c names); reflexivity.
Qed.


(** ** get_records *)

Lemma bytes_eqb_eq x y : bytes_eqb x y = true <-> x = y.
Proof.
  revert y. induction x as [| p x IH]; destruct y as [| q y]; simpl;
    try (split; [discriminate | discriminate]); [tauto |].
  rewrite andb_true_iff, IH. split.
  - intros [E ->]. apply Byte.byte_dec_bl in E. subst. reflexivity.
  - intros E. inversion E; subst. split; [| reflexivity].
    apply Byte.byte_dec_lb. reflexivity.
Qed.

Lemma value_eqb_eq a b : value_eqb a b = true <-> a = b.
Proof.
  destruct a, b; simpl; try (split; [discriminate | discriminate]).
  - tauto.
  - rewrite Z.eqb_eq. split; congruence.
  - rewrite String.eqb_eq. split; congruence.
  - rewrite bytes_eqb_eq. split; congruence.
Qed.





Section GetRecords.
Context {wording : EngineText}.



End GetRecords.

(** *** Examples: the filter test *)

Section PeopleExamples.
#[local] Existing Instance example_wording.

Example people_built :
  (create_table "test_table" people_columns ;;
   insert_record "test_table" john ;;
   insert_record "test_table" [("name", VText "Jane Smith"); ("age", VInt 25)] ;;
   insert_record "test_table" [("name", VText "Bob Johnson"); ("age", VInt 30)] ;;
   ret tt) [] = (Ok tt, people).
Proof. vm_compute. reflexivity. Qed.

Example people_unknown_age_built :
  (create_table "test_table" people_columns ;;
   insert_record "test_table" [("name", VText "Jane Smith")] ;;
   ret tt) [] = (Ok tt, people_unknown_age).
Proof. vm_compute. reflexivity. Qed.

(** The three filters of the test: two rows of age 30, one Jane Smith, nobody
    who is both. *)
Example filter_by_age :
  get_records (wording := example_wording) "test_table" (Some [("age", VInt 30)]) people
  = (Ok [[("id", VInt 1); ("name", VText "John Doe"); ("age", VInt 30)];
         [("id", VInt 3); ("name", VText "Bob Johnson"); ("age", VInt 30)]], people).
Proof. vm_compute. reflexivity. Qed.

Example filter_by_name :
  get_records (wording := example_wording) "test_table"
              (Some [("name", VText "Jane Smith")]) people
  = (Ok [[("id", VInt 2); ("name", VText "Jane Smith"); ("age", VInt 25)]], people).
Proof. vm_compute. reflexivity. Qed.

Example filter_by_both :
  get_records (wording := example_wording) "test_table"
              (Some [("name", VText "Jane Smith"); ("age", VInt 30)]) people
  = (Ok [], people).
Proof. vm_compute. reflexivity. Qed.

End PeopleExamples.

(** *** What passing the filters means *)



Section FilterSemantics.
Context {wording : EngineText}.


End FilterSemantics.



(** ** insert_record *)

Section InsertRecord.
Context {wording : EngineText}.



End InsertRecord.


(** ** update_record and delete_record *)

Lemma existsb_Zeqb_false z (l : list Z) : existsb (Z.eqb z) l = false <-> ~ In z l.
Proof.
  induction l as [| x l IH]; simpl; [tauto |].
  rewrite orb_false_iff, IH, Z.eqb_neq. split.
  - intros [N M] [E | I]; [congruence | tauto].
  - intros N. split; [intros E; apply N; left; congruence | tauto].
Qed.


Lemma find_row_some rid rows r : find_row rid rows = Some r -> In r rows /\ row_id r = rid.
Proof.
  unfold find_row. intros E. apply find_some in E.
  destruct E as [I E]. apply Z.eqb_eq in E. tauto.
Qed.


Section UpdateDelete.
Context {wording : EngineText}.





(** Neither does an empty data mapping. *)
Lemma update_record_without_data db table_name record_id :
  update_record table_name record_id [] db = (Raise (SqliteError SyntaxError), db).
Proof.
  unfold update_record. rewrite conn_execute_spelled by reflexivity. reflexivity.
Qed.


End UpdateDelete.


(** *** The cells of an updated row *)

Lemma length_assign_cells cols cells asg :
  length (assign_cells cols cells asg) = length cells.
Proof.
  revert cells. induction cols as [| c cols IH]; intros [| v cells]; simpl;
    try reflexivity.
  rewrite IH. reflexivity.
Qed.



Lemma index_of_nth c names i : index_of c names = Some i -> nth_error names i = Some c.
Proof.
  revert i. induction names as [| n names IH]; intros i E; simpl in *; [discriminate E |].
  destruct (String.eqb c n) eqn:Q.
  - apply String.eqb_eq in Q. inversion E; subst. reflexivity.
  - destruct (index_of c names) as [j |]; [| discriminate E].
    inversion E; subst. simpl. apply IH. reflexivity.
Qed.

Lemma index_of_In c names : In c names -> exists i, index_of c names = Some i.
Proof.
  induction names as [| n names IH]; simpl; [tauto |].
  intros I. destruct (String.eqb c n) eqn:Q.
  - exists 0. reflexivity.
  - apply String.eqb_neq in Q. destruct I as [E | I]; [congruence |].
    destruct (IH I) as [i E]. rewrite E. exists (S i). reflexivity.
Qed.


(** *** Rows around the updated one *)


Lemma In_insert_row r x rows : In x (insert_row r rows) <-> x = r \/ In x rows.
Proof.
  induction rows as [| r0 rows IH]; simpl.
  - split; [intros [E | []]; left; congruence | intros [E | []]; left; congruence].
  - destruct (Z.ltb (row_id r) (row_id r0)); simpl.
    + split; [intros [E | I]; [left; congruence | right; exact I]
             | intros [E | I]; [left; congruence | right; exact I]].
    + rewrite IH. split; intros I; intuition congruence.
Qed.

Section UpdateFacts.
Context {wording : EngineText}.



(** C7 (amended).  The sql field of the envelope update_record returns is the
    text [UPDATE <name> SET col1 = :col1, ... WHERE rowid = :record_id]: one
    clause [col = :col] per key of data, in the order of data, joined by
    [, ]; the placeholders are named after the columns and the row handle
    is the placeholder [:record_id].  The values are bound, not written into
    the text: the text depends on the keys of data only. *)
Theorem update_record_sql db table_name record_id data r db' :
  update_record table_name record_id data db = (Ok r, db') ->
  ur_sql r = "UPDATE " ++ table_name ++ " SET "
               ++ join ", " (map (fun col => col ++ " = :" ++ col) (keys data))
               ++ " WHERE rowid = :record_id" /\
  ur_sql r = sql_text (SUpdateByRowid table_name
                         (map (fun col => (col, col)) (keys data)) "record_id") /\
  (forall data2 r2 db2 db2',
     keys data2 = keys data ->
     update_record table_name record_id data2 db2 = (Ok r2, db2') ->
     ur_sql r2 = ur_sql r).
Proof.
  intros R.
  assert (S : forall d x y z, update_record table_name record_id d x = (Ok y, z) ->
                              ur_sql y = update_sql table_name d).
  { intros d x y z Q. unfold update_record in Q.
    apply bind_inv in Q. destruct Q as (c & db1 & _ & Q).
    apply ret_inv in Q. destruct Q as [<- _]. reflexivity. }
  split; [| split].
  - apply (S _ _ _ _ R).
  - rewrite (S _ _ _ _ R). apply update_spelled.
  - intros data2 r2 db2 db2' E R2.
    rewrite (S _ _ _ _ R), (S _ _ _ _ R2). unfold update_sql. rewrite E. reflexivity.
Qed.


End UpdateFacts.

(** *** Examples *)

Example update_age_only :
  update_record (wording := example_wording) "test_table" 2 birthday people
  = (Ok (update_envelope "test_table" 2 birthday), people_after_birthday).
Proof. vm_compute. reflexivity. Qed.


Lemma update_record_sql_witness :
  ur_sql (update_envelope "test_table" 2 birthday)
  = "UPDATE test_table SET age = :age WHERE rowid = :record_id" /\
  ur_sql (update_envelope "test_table" 2 birthday)
  = sql_text (SUpdateByRowid "test_table" [("age", "age")] "record_id") /\
  (forall data2 r2 db2 db2',
     keys data2 = keys birthday ->
     update_record (wording := example_wording) "test_table" 2 data2 db2 = (Ok r2, db2') ->
     ur_sql r2 = ur_sql (update_envelope "test_table" 2 birthday)).
Proof.
  apply (update_record_sql (wording := example_wording)
           people "test_table" 2 birthday
           (update_envelope "test_table" 2 birthday) people_after_birthday).
  vm_compute. reflexivity.
Defined.

(** The text carries named placeholders, not [?]: the claim as stated fails. *)
Lemma update_sql_is_not_positional :
  ~ update_sql_claim_as_stated (wording := example_wording)
      people "test_table" 2 birthday.
Proof.
  intros C. specialize (C _ _ update_age_only). vm_compute in C. discriminate C.
Qed.

Example tickets_built :
  (create_table (wording := example_wording) "tickets"
     [("record_id", "INTEGER"); ("note", "TEXT")] ;;
   insert_record (wording := example_wording) "tickets"
     [("record_id", VInt 100); ("note", VText "open")] ;;
   insert_record (wording := example_wording) "tickets"
     [("record_id", VInt 200); ("note", VText "open")] ;;
   ret tt) [] = (Ok tt, tickets).
Proof. vm_compute. reflexivity. Qed.

(** The column receives 2, the row handle, not the 999 of [data]. *)
Example close_ticket_run :
  update_record (wording := example_wording) "tickets" 2 close_ticket tickets
  = (Ok (update_envelope "tickets" 2 close_ticket), tickets_after).
Proof. vm_compute. reflexivity. Qed.


(** ** get_schema *)


(** In a catalog without repeated names every table is found by its name. *)
Lemma find_table_own db :
  NoDup (map tbl_name db) -> forall t, In t db -> find_table (tbl_name t) db = Some t.
Proof.
  unfold find_table. induction db as [| t0 db IH]; intros N t I; simpl in *; [tauto |].
  inversion N as [| ? ? Fresh N']; subst.
  destruct I as [-> | I].
  - unfold has_name. rewrite String.eqb_refl. reflexivity.
  - assert (Q : has_name (tbl_name t) t0 = false).
    { apply has_name_false. intros E. apply Fresh. rewrite E. apply in_map. exact I. }
    rewrite Q. apply IH; assumption.
Qed.

Section GetSchema.
Context {wording : EngineText}.





End GetSchema.


(** ** The copy-rebuild sequence *)

Lemma shadow_name_differs (n : string) : n ++ "_new" <> n.
Proof.
  induction n as [| a n IH]; simpl.
  - discriminate.
  - intros E. inversion E. contradiction.
Qed.

Lemma find_table_remove_same n db : find_table n (remove_table n db) = None.
Proof.
  unfold find_table, remove_table. induction db as [| t db IH]; simpl; [reflexivity |].
  destruct (has_name n t) eqn:E; simpl; [exact IH |]. rewrite E. exact IH.
Qed.

Lemma find_table_remove_other m n db :
  m <> n -> find_table m (remove_table n db) = find_table m db.
Proof.
  intros N. unfold find_table, remove_table.
  induction db as [| t db IH]; simpl; [reflexivity |].
  destruct (has_name n t) eqn:E; simpl.
  - apply has_name_true in E.
    assert (Q : has_name m t = false) by (apply has_name_false; congruence).
    rewrite Q. exact IH.
  - destruct (has_name m t); [reflexivity | exact IH].
Qed.

Lemma remove_table_app n db t :
  tbl_name t <> n -> remove_table n (db ++ [t])%list = (remove_table n db ++ [t])%list.
Proof.
  intros N. unfold remove_table. rewrite filter_app. simpl.
  apply has_name_false in N. rewrite N. reflexivity.
Qed.

(** *** Result column names *)


Lemma fresh_name_is_fresh used z z' : fresh_name used z = Some z' -> ~ In z' used.
Proof.
  unfold fresh_name. destruct (mem z used) eqn:E.
  - intros F. apply find_some in F. destruct F as [_ F].
    apply negb_true_iff, mem_false in F. exact F.
  - intros F. inversion F; subst. apply mem_false. exact E.
Qed.


(** The names the engine gives are distinct, one per result column. *)
Lemma result_names_sound used l names :
  result_names used l = Some names ->
  NoDup names /\ length names = length l /\ (forall x, In x names -> ~ In x used).
Proof.
  revert used names. induction l as [| z l IH]; intros used names R; simpl in R.
  - inversion R; subst. split; [constructor | split; [reflexivity | intros x []]].
  - destruct (fresh_name used z) as [z' |] eqn:F; [| discriminate R].
    destruct (result_names (z' :: used) l) as [rest |] eqn:Q; [| discriminate R].
    inversion R; subst. destruct (IH _ _ Q) as (N & L & D).
    split; [| split].
    + constructor; [| exact N]. intros I. apply (D z' I). left. reflexivity.
    + simpl. rewrite L. reflexivity.
    + intros x [<- | I]; [apply (fresh_name_is_fresh _ _ _ F) |].
      intros U. apply (D x I). right. exact U.
Qed.

(** *** Projections of a row *)







(** *** Dictionaries without a key, with a key renamed *)




(** *** The three statements *)

Section CopyRebuild.
Context {wording : EngineText}.

Lemma exec_create_as_run db new proj src t :
  find_table src db = Some t ->
  exec_create_as new proj src db
  = if table_exists new db then (Raise (SqliteError (TableExists new)), db)
    else match proj with
    | [] => (Raise (SqliteError SyntaxError), db)
    | _ :: _ =>
      match unknown_column t (map fst proj) with
      | Some c => (Raise (SqliteError (NoSuchColumn c)), db)
      | None =>
        match result_names [] (map proj_name proj) with
        | None => (Raise (SqliteError UndeterminedName), db)
        | Some names => (Ok no_rows, (db ++ [shadow t new proj names])%list)
        end
      end
    end.
Proof.
  intros F. unfold exec_create_as.
  unfold bind at 1. unfold get at 1.
  destruct (table_exists new db); [reflexivity |].
  destruct proj as [| p proj]; [reflexivity |].
  rewrite (bind_ok _ _ _ _ _ (the_table_run _ _ _ F)).
  unfold check_columns.
  destruct (unknown_column t (map fst (p :: proj))) as [c |]; [reflexivity |].
  rewrite (bind_ok _ _ db tt db) by reflexivity.
  destruct (result_names [] (map proj_name (p :: proj))) as [names |]; reflexivity.
Qed.

Lemma exec_drop_run db n :
  table_exists n db = true -> exec_drop false n db = (Ok no_rows, remove_table n db).
Proof. intros E. unfold exec_drop, bind, get. rewrite E. reflexivity. Qed.

Lemma exec_rename_run db old new t :
  find_table old db = Some t -> table_exists new db = false ->
  exec_rename old new db
  = (Ok no_rows,
     update_table old
       (fun t0 => mkTable new (rename_ddl (tbl_sql t0) new) (tbl_cols t0) (tbl_rows t0)) db).
Proof.
  intros F E. unfold exec_rename.
  rewrite (bind_ok _ _ _ _ _ (the_table_run _ _ _ F)).
  unfold bind, get. rewrite E. reflexivity.
Qed.

(** The sequence as a whole, on a table that exists. *)
Lemma rebuild_run db table_name t proj (s : string) :
  find_table table_name db = Some t ->
  (execute (SCreateTableAs (table_name ++ "_new") proj table_name) [] ;;
   execute (SDropTable false table_name) [] ;;
   execute (SRenameTable (table_name ++ "_new") table_name) [] ;;
   ret s) db
  = if table_exists (table_name ++ "_new") db
    then (Raise (SqliteError (TableExists (table_name ++ "_new"))), db)
    else match proj with
    | [] => (Raise (SqliteError SyntaxError), db)
    | _ :: _ =>
      match unknown_column t (map fst proj) with
      | Some c => (Raise (SqliteError (NoSuchColumn c)), db)
      | None =>
        match result_names [] (map proj_name proj) with
        | None => (Raise (SqliteError UndeterminedName), db)
        | Some names => (Ok s, (remove_table table_name db ++ [rebuilt t proj names])%list)
        end
      end
    end.
Proof.
  intros F. pose proof (find_table_name _ _ _ F) as Name.
  unfold execute.
  unfold bind at 1. rewrite (exec_create_as_run _ _ _ _ _ F).
  destruct (table_exists (table_name ++ "_new") db) eqn:Free; [reflexivity |].
  destruct proj as [| p proj]; [reflexivity |].
  destruct (unknown_column t (map fst (p :: proj))) as [c |]; [reflexivity |].
  destruct (result_names [] (map proj_name (p :: proj))) as [names |]; [| reflexivity].
  set (sh := shadow t (table_name ++ "_new") (p :: proj) names).
  assert (Free' : find_table (table_name ++ "_new") db = None).
  { rewrite table_exists_find in Free.
    destruct (find_table (table_name ++ "_new") db); [discriminate Free | reflexivity]. }
  rewrite (bind_ok _ _ _ no_rows (remove_table table_name db ++ [sh])%list).
  2: { rewrite exec_drop_run.
       - rewrite remove_table_app; [reflexivity | apply shadow_name_differs].
       - rewrite table_exists_find.
         rewrite (find_table_app_found _ _ _ _ F). reflexivity. }
  rewrite (bind_ok _ _ _ no_rows (remove_table table_name db ++ [rebuilt t (p :: proj) names])%list).
  - reflexivity.
  - rewrite (exec_rename_run _ _ _ sh).
    + rewrite update_table_app_fresh.
      * unfold rebuilt. rewrite Name. reflexivity.
      * rewrite find_table_remove_other by apply shadow_name_differs. exact Free'.
      * reflexivity.
    + apply find_table_app_fresh; [| reflexivity].
      rewrite find_table_remove_other by apply shadow_name_differs. exact Free'.
    + rewrite table_exists_find.
      rewrite find_table_app_other by apply shadow_name_differs.
      rewrite find_table_remove_same. reflexivity.
Qed.

(** What PRAGMA table_info tells the facade: the column names. *)
Lemma introspected_names db table_name t :
  find_table table_name db = Some t ->
  (cursor <- conn_execute ("PRAGMA table_info(" ++ table_name ++ ")")
                          (SPragmaTableInfo table_name) [] ;;
   mapM (str_item "name") (fetchall dict_factory cursor)) db
  = (Ok (col_names t), db).
Proof.
  intros F. rewrite conn_execute_spelled by reflexivity.
  unfold execute, exec_table_info.
  rewrite (bind_ok _ _ db (mkCursor ["cid"; "name"] (table_info_rows 0 (tbl_cols t)) 0) db).
  2: { unfold bind, get. rewrite F. reflexivity. }
  unfold fetchall, col_names. simpl tuples.
  generalize 0%Z as cid. induction (tbl_cols t) as [| c cols IH]; intros cid; simpl.
  - reflexivity.
  - rewrite (bind_ok _ _ db (col_name c) db) by reflexivity.
    rewrite (bind_ok _ _ _ _ _ (IH (cid + 1)%Z)). reflexivity.
Qed.

End CopyRebuild.

Lemma bind_assoc {A B C} (m : M A) (f : A -> M B) (g : B -> M C) db :
  bind (bind m f) g db = bind m (fun x => bind (f x) g) db.
Proof. unfold bind. destruct (m db) as [[a | e] db1]; reflexivity. Qed.


Lemma col_names_plain (names : list string) :
  map col_name (map (fun n => mkColumn n false) names) = names.
Proof. rewrite map_map. simpl. apply map_id. Qed.

Section ColumnSurgery.
Context {wording : EngineText}.

Lemma drop_column_run db table_name column_name t :
  find_table table_name db = Some t ->
  drop_column table_name column_name db
  = rebuild_outcome db table_name t (dropping column_name t)
      ("ALTER TABLE " ++ table_name ++ " DROP COLUMN " ++ column_name).
Proof.
  intros F. unfold drop_column.
  rewrite <- bind_assoc.
  rewrite (bind_ok _ _ _ _ _ (introspected_names _ _ _ F)).
  cbv zeta.
  rewrite (conn_execute_spelled _ _ _ (create_as_spelled _ _ _)).
  rewrite !conn_execute_spelled by reflexivity.
  apply rebuild_run. exact F.
Qed.


End ColumnSurgery.

Section RebuiltRows.
Context {wording : EngineText}.










End RebuiltRows.

Section CopyRebuildClaims.
Context {wording : EngineText}.




(** The sequence needs its shadow name: when a table of that name exists,
    the first statement is refused and nothing changes. *)
Lemma drop_column_needs_shadow_name db table_name t column_name :
  find_table table_name db = Some t ->
  table_exists (table_name ++ "_new") db = true ->
  drop_column table_name column_name db
  = (Raise (SqliteError (TableExists (table_name ++ "_new"))), db).
Proof.
  intros F X. rewrite (drop_column_run _ _ _ _ F). unfold rebuild_outcome.
  rewrite X. reflexivity.
Qed.


End CopyRebuildClaims.

(** *** Examples *)

Example drop_age :
  drop_column (wording := example_wording) "test_table" "age" people
  = (Ok "ALTER TABLE test_table DROP COLUMN age", people_without_age).
Proof. vm_compute. reflexivity. Qed.

Example rename_name :
  rename_column (wording := example_wording) "test_table" "name" "full_name" people
  = (Ok "ALTER TABLE test_table RENAME COLUMN name TO full_name", people_full_name).
Proof. vm_compute. reflexivity. Qed.

Example drop_salary :
  drop_column (wording := example_wording) "test_table" "salary" people
  = (Ok "ALTER TABLE test_table DROP COLUMN salary", people_rebuilt).
Proof. vm_compute. reflexivity. Qed.



(** *** A new name that is taken *)



(** ** The invariant

    Every call of the facade, whether it returns or raises, takes a
    well-formed database to a well-formed database; the empty database file
    is well-formed.  So [wf_db] holds of every database the facade builds. *)

Lemma preserves_ret {A} (a : A) : preserves (ret a).
Proof. intros db r db' W E. inversion E; subst. exact W. Qed.

Lemma preserves_raise {A} e : preserves (@raise A e).
Proof. intros db r db' W E. inversion E; subst. exact W. Qed.

Lemma preserves_fail {A} e : preserves (@fail A e).
Proof. apply preserves_raise. Qed.

Lemma preserves_bind {A B} (m : M A) (k : A -> M B) :
  preserves m -> (forall a, preserves (k a)) -> preserves (bind m k).
Proof.
  intros Pm Pk db r db' W E. unfold bind in E.
  destruct (m db) as [[a | e] db1] eqn:Q.
  - apply (Pk a db1 r db'); [apply (Pm _ _ _ W Q) | exact E].
  - inversion E; subst. apply (Pm _ _ _ W Q).
Qed.

Lemma preserves_mapM {A B} (f : A -> M B) (l : list A) :
  (forall a, preserves (f a)) -> preserves (mapM f l).
Proof.
  intros P. induction l as [| x l IH]; simpl.
  - apply preserves_ret.
  - apply preserves_bind; [apply P | intros y].
    apply preserves_bind; [exact IH | intros ys]. apply preserves_ret.
Qed.

(** *** Catalog operations *)

Lemma wf_db_split db :
  wf_db db = true <-> NoDup (map tbl_name db) /\ (forall t, In t db -> wf_table t = true).
Proof.
  unfold wf_db. rewrite andb_true_iff, nodupb_NoDup, forallb_forall. tauto.
Qed.

Lemma find_table_none n db : find_table n db = None <-> ~ In n (map tbl_name db).
Proof.
  unfold find_table. induction db as [| t db IH]; simpl; [tauto |].
  destruct (has_name n t) eqn:E.
  - apply has_name_true in E. split; [discriminate | tauto].
  - apply has_name_false in E. rewrite IH. tauto.
Qed.

Lemma NoDup_snoc {A} (l : list A) x : NoDup l -> ~ In x l -> NoDup (l ++ [x]).
Proof.
  induction l as [| y l IH]; simpl; intros N F.
  - constructor; [intros [] | constructor].
  - inversion N as [| ? ? Fresh N']; subst. constructor.
    + intros I. apply in_app_or in I. destruct I as [I | [E | []]]; [tauto |].
      apply F. left. symmetry. exact E.
    + apply IH; [exact N' | tauto].
Qed.

Lemma wf_db_app db t :
  wf_db db = true -> find_table (tbl_name t) db = None -> wf_table t = true ->
  wf_db (db ++ [t])%list = true.
Proof.
  rewrite !wf_db_split. intros [N W] F Wt. split.
  - rewrite map_app. simpl.
    apply NoDup_snoc; [exact N | apply find_table_none; exact F].
  - intros t0 I. apply in_app_or in I. destruct I as [I | [<- | []]]; [apply W; exact I | exact Wt].
Qed.

Lemma wf_db_remove_table db n : wf_db db = true -> wf_db (remove_table n db) = true.
Proof.
  rewrite !wf_db_split. intros [N W]. unfold remove_table. split.
  - clear W. induction db as [| t db IH]; simpl; [constructor |].
    inversion N as [| ? ? Fresh N']; subst.
    destruct (negb (has_name n t)); simpl; [| apply IH; exact N'].
    constructor; [| apply IH; exact N'].
    intros I. apply Fresh. apply in_map_iff in I. destruct I as (t0 & E & I).
    apply filter_In in I. apply in_map_iff. exists t0. tauto.
  - intros t I. apply filter_In in I. apply W. tauto.
Qed.

Lemma In_update_table n f db t' :
  In t' (update_table n f db) ->
  In t' db \/ exists t, In t db /\ tbl_name t = n /\ t' = f t.
Proof.
  induction db as [| t db IH]; simpl; [tauto |].
  destruct (has_name n t) eqn:E.
  - apply has_name_true in E. intros [<- | I]; [| left; right; exact I].
    right. exists t. split; [left; reflexivity | split; [exact E | reflexivity]].
  - intros [<- | I]; [left; left; reflexivity |].
    destruct (IH I) as [J | (t0 & J & Q & R)]; [left; right; exact J |].
    right. exists t0. split; [right; exact J | split; assumption].
Qed.

(** Rewriting the entry of a table under its name. *)
Lemma wf_db_update_table db n f :
  wf_db db = true ->
  (forall t, tbl_name (f t) = tbl_name t) ->
  (forall t, In t db -> tbl_name t = n -> wf_table (f t) = true) ->
  wf_db (update_table n f db) = true.
Proof.
  rewrite !wf_db_split. intros [N W] Nm P. split.
  - assert (E : map tbl_name (update_table n f db) = map tbl_name db).
    { clear - Nm. induction db as [| t db IH]; simpl; [reflexivity |].
      destruct (has_name n t); simpl; [rewrite Nm; reflexivity | rewrite IH; reflexivity]. }
    rewrite E. exact N.
  - intros t' I. destruct (In_update_table _ _ _ _ I) as [J | (t & J & Q & ->)].
    + apply W. exact J.
    + apply P; assumption.
Qed.

(** Giving a table a name that is free. *)
Lemma wf_db_rename_table db old new f :
  wf_db db = true ->
  ~ In new (map tbl_name db) ->
  (forall t, tbl_name (f t) = new) ->
  (forall t, In t db -> wf_table (f t) = true) ->
  wf_db (update_table old f db) = true.
Proof.
  rewrite !wf_db_split. intros [N W] Free Nm P. split.
  - clear W P. induction db as [| t db IH]; simpl; [constructor |].
    inversion N as [| ? ? Fresh N']; subst.
    destruct (has_name old t); simpl.
    + rewrite Nm. constructor; [| exact N']. intros I. apply Free. right. exact I.
    + constructor.
      * intros I. apply in_map_iff in I. destruct I as (t' & E & I).
        destruct (In_update_table _ _ _ _ I) as [J | (t0 & J & Q & ->)].
        -- apply Fresh. rewrite <- E. apply in_map. exact J.
        -- rewrite Nm in E. apply Free. left. symmetry. exact E.
      * apply IH; [exact N' |]. intros I. apply Free. right. exact I.
  - intros t' I. destruct (In_update_table _ _ _ _ I) as [J | (t & J & Q & ->)].
    + apply W. exact J.
    + apply P. exact J.
Qed.

(** *** Steps that only read *)

Lemma reads_expect {A} (o : option A) e : reads (expect o e).
Proof. intros db r db' E. destruct o; inversion E; reflexivity. Qed.

Lemma reads_the_table n : reads (the_table n).
Proof.
  intros db r db' E. unfold the_table, bind, get in E.
  destruct (find_table n db); inversion E; reflexivity.
Qed.

Lemma reads_check_columns t cs : reads (check_columns t cs).
Proof.
  intros db r db' E. unfold check_columns in E.
  destruct (unknown_column t cs); inversion E; reflexivity.
Qed.

Lemma reads_bound p params : reads (bound p params).
Proof. apply reads_expect. Qed.

Lemma reads_bind_pairs pairs params : reads (bind_pairs pairs params).
Proof.
  unfold bind_pairs. induction pairs as [| cp pairs IH]; intros db r db' E; simpl in E.
  - inversion E; reflexivity.
  - unfold bind at 1 in E. unfold bind at 1 in E.
    destruct (bound (snd cp) params db) as [[v | e] db1] eqn:Q.
    + apply reads_bound in Q. subst db1. unfold ret at 1 in E.
      unfold bind at 1 in E.
      destruct (mapM _ pairs db) as [[ys | e] db2] eqn:Q2.
      * apply IH in Q2. subst. inversion E; reflexivity.
      * apply IH in Q2. subst. inversion E; reflexivity.
    + apply reads_bound in Q. subst. inversion E; reflexivity.
Qed.

Lemma bind_cases {A B} (m : M A) (k : A -> M B) db r db' :
  bind m k db = (r, db') ->
  (exists e, m db = (Raise e, db')) \/
  (exists a db1, m db = (Ok a, db1) /\ k a db1 = (r, db')).
Proof.
  unfold bind. destruct (m db) as [[a | e] db1]; intros E.
  - right. exists a, db1. split; [reflexivity | exact E].
  - left. exists e. inversion E; subst. reflexivity.
Qed.

(** Take the first step of a run [E], a step that only reads by [L]: either
    the run stopped there, and the database is the one before, which is
    well-formed by [W]; or the run goes on from the same database. *)
Ltac read_step E L W :=
  let Q := fresh "Q" in
  let e := fresh "e" in
  let a := fresh "a" in
  let db1 := fresh "db" in
  apply bind_cases in E;
  destruct E as [(e & Q) | (a & db1 & Q & E)];
  [apply L in Q; subst; exact W | apply L in Q as ?; subst db1].

Lemma wf_with_rows t rows :
  wf_table t = true ->
  (forall r, In r rows -> length (row_cells r) = length (tbl_cols t)) ->
  wf_table (with_rows t rows) = true.
Proof.
  unfold wf_table. rewrite !andb_true_iff. intros [[C N] _] L.
  split; [split; assumption |]. simpl. apply forallb_forall.
  intros r I. apply Nat.eqb_eq. apply L. exact I.
Qed.

Lemma wf_table_row_cols t r :
  wf_table t = true -> In r (tbl_rows t) -> length (row_cells r) = length (tbl_cols t).
Proof.
  intros W I. rewrite (wf_table_row t r W I). unfold col_names. apply length_map.
Qed.

(** Storing rows of the right width keeps the database well-formed. *)
Lemma store_rows_wf db n t rows :
  wf_db db = true -> find_table n db = Some t ->
  (forall r, In r rows -> length (row_cells r) = length (tbl_cols t)) ->
  wf_db (update_table n (fun t0 => with_rows t0 rows) db) = true.
Proof.
  intros W F L. apply wf_db_update_table; [exact W | reflexivity |].
  intros t0 I Q.
  assert (E : t0 = t).
  { apply wf_db_split in W. destruct W as [N _].
    pose proof (find_table_own db N t0 I) as F0. rewrite Q, F in F0. congruence. }
  subst t0. apply wf_with_rows; [apply (wf_db_table _ _ _ W F) | exact L].
Qed.

Lemma length_new_cells t rid asg : length (new_cells t rid asg) = length (tbl_cols t).
Proof. unfold new_cells. apply length_map. Qed.

Section EnginePreserves.
Context {wording : EngineText}.

Lemma preserves_exec_create n defs : preserves (exec_create n defs).
Proof.
  intros db r db' W E. unfold exec_create in E.
  destruct defs as [| d defs]; [inversion E; subst; exact W |].
  unfold bind at 1 in E. unfold get at 1 in E.
  destruct (table_exists n db) eqn:X; [inversion E; subst; exact W |].
  destruct (first_duplicate (map fst (d :: defs))) eqn:D; [inversion E; subst; exact W |].
  destruct (Nat.ltb 1 _); [inversion E; subst; exact W |].
  unfold bind, put, ret in E. inversion E; subst.
  apply wf_db_app; [exact W | |].
  - simpl. rewrite table_exists_find in X.
    destruct (find_table n db); [discriminate X | reflexivity].
  - apply first_duplicate_none in D.
    unfold wf_table. rewrite !andb_true_iff. split; [split |]; [reflexivity | | reflexivity].
    apply nodupb_NoDup. unfold col_names. simpl. rewrite map_map. exact D.
Qed.

Lemma preserves_exec_insert n cols params : preserves (exec_insert n cols params).
Proof.
  intros db r db' W E. unfold exec_insert in E.
  destruct cols as [| c cols]; [inversion E; subst; exact W |].
  read_step E (reads_the_table n) W.
  apply the_table_inv in Q. destruct Q as [F _].
  read_step E (reads_check_columns a (map fst (c :: cols))) W.
  read_step E (reads_bind_pairs (c :: cols) params) W.
  read_step E (@reads_expect rowid_choice (asked_rowid a a1) DatatypeMismatch) W.
  apply bind_cases in E. destruct E as [(e & Q4) | (rid & db1 & Q4 & E)].
  - destruct a2; [inversion Q4; subst; exact W |].
    destruct (existsb _ _); inversion Q4; subst; exact W.
  - assert (db1 = db).
    { destruct a2; [inversion Q4; reflexivity |].
      destruct (existsb _ _); inversion Q4; reflexivity. }
    subst db1. unfold bind, store_rows, get, put, ret in E. inversion E; subst.
    apply (store_rows_wf db n a); [exact W | exact F |].
    intros r0 I. apply In_insert_row in I. destruct I as [-> | I].
    + simpl. apply length_new_cells.
    + apply wf_table_row_cols; [apply (wf_db_table _ _ _ W F) | exact I].
Qed.

Lemma preserves_exec_select n conds params : preserves (exec_select n conds params).
Proof.
  intros db r db' W E. unfold exec_select in E.
  read_step E (reads_the_table n) W.
  read_step E (reads_check_columns a (map fst conds)) W.
  read_step E (reads_bind_pairs conds params) W.
  inversion E; subst. exact W.
Qed.

Lemma preserves_exec_update n sets w params : preserves (exec_update n sets w params).
Proof.
  intros db r db' W E. unfold exec_update in E.
  destruct sets as [| c sets]; [inversion E; subst; exact W |].
  read_step E (reads_the_table n) W.
  apply the_table_inv in Q. destruct Q as [F _].
  read_step E (reads_check_columns a (map fst (c :: sets))) W.
  read_step E (reads_bind_pairs (c :: sets) params) W.
  read_step E (reads_bound w params) W.
  destruct a2; try (inversion E; subst; exact W).
  destruct (find_row z (tbl_rows a)) as [old |] eqn:Old; [| inversion E; subst; exact W].
  read_step E (@reads_expect Z (moved_rowid a a1 z) DatatypeMismatch) W.
  destruct (existsb _ _); [inversion E; subst; exact W |].
  unfold bind, store_rows, get, put, ret in E. inversion E; subst.
  apply (store_rows_wf db n a); [exact W | exact F |].
  intros r0 I. apply In_insert_row in I. destruct I as [-> | I].
  - simpl. rewrite length_assign_cells.
    apply wf_table_row_cols; [apply (wf_db_table _ _ _ W F) |].
    apply (proj1 (find_row_some _ _ _ Old)).
  - unfold remove_row in I. apply filter_In in I.
    apply wf_table_row_cols; [apply (wf_db_table _ _ _ W F) | tauto].
Qed.

Lemma preserves_exec_delete n w params : preserves (exec_delete n w params).
Proof.
  intros db r db' W E. unfold exec_delete in E.
  read_step E (reads_the_table n) W.
  apply the_table_inv in Q. destruct Q as [F _].
  read_step E (reads_bound w params) W.
  destruct a0; try (inversion E; subst; exact W).
  unfold bind, store_rows, get, put, ret in E. inversion E; subst.
  apply (store_rows_wf db n a); [exact W | exact F |].
  intros r0 I. unfold remove_row in I. apply filter_In in I.
  apply wf_table_row_cols; [apply (wf_db_table _ _ _ W F) | tauto].
Qed.

Lemma preserves_exec_drop ie n : preserves (exec_drop ie n).
Proof.
  intros db r db' W E. unfold exec_drop, bind, get, put, ret in E.
  destruct (table_exists n db).
  - inversion E; subst. apply wf_db_remove_table. exact W.
  - destruct ie; inversion E; subst; exact W.
Qed.

End EnginePreserves.

Section EnginePreservesSchema.
Context {wording : EngineText}.

Lemma preserves_exec_rename old new : preserves (exec_rename old new).
Proof.
  intros db r db' W E. unfold exec_rename in E.
  read_step E (reads_the_table old) W.
  unfold bind, get, put, ret in E.
  destruct (table_exists new db) eqn:X; [inversion E; subst; exact W |].
  inversion E; subst.
  apply (wf_db_rename_table db old new); [exact W | | reflexivity |].
  - apply find_table_none. rewrite table_exists_find in X.
    destruct (find_table new db); [discriminate X | reflexivity].
  - intros t I. apply wf_db_split in W. destruct W as [_ W]. exact (W t I).
Qed.

Lemma preserves_exec_add_column n c ty : preserves (exec_add_column n c ty).
Proof.
  intros db r db' W E. unfold exec_add_column in E.
  read_step E (reads_the_table n) W.
  apply the_table_inv in Q. destruct Q as [F _].
  destruct (mem c (col_names a)) eqn:Dup; [inversion E; subst; exact W |].
  destruct (is_rowid_alias ty); [inversion E; subst; exact W |].
  unfold bind, get, put, ret in E. inversion E; subst.
  apply wf_db_update_table; [exact W | reflexivity |].
  intros t I Q.
  assert (T : t = a).
  { pose proof W as W'. apply wf_db_split in W'. destruct W' as [N _].
    pose proof (find_table_own db N t I) as F0. rewrite Q, F in F0. congruence. }
  subst t. pose proof (wf_db_table _ _ _ W F) as Wt.
  unfold wf_table. rewrite !andb_true_iff. split; [split |].
  - simpl. destruct (tbl_cols a); reflexivity.
  - apply nodupb_NoDup. unfold col_names. simpl. rewrite map_app. simpl.
    apply NoDup_snoc; [apply wf_table_cols; exact Wt | apply mem_false; exact Dup].
  - simpl. apply forallb_forall. intros r0 I0.
    apply in_map_iff in I0. destruct I0 as (r1 & <- & I1). simpl.
    apply Nat.eqb_eq. rewrite !length_app. simpl.
    rewrite (wf_table_row_cols a r1 Wt I1). reflexivity.
Qed.

Lemma width_number_rows n k (l : list (list value)) :
  (forall cells, In cells l -> length cells = n) ->
  forallb (fun r => Nat.eqb (length (row_cells r)) n) (number_rows k l) = true.
Proof.
  revert k. induction l as [| cells l IH]; intros k P; simpl; [reflexivity |].
  rewrite (P cells (or_introl eq_refl)), Nat.eqb_refl. simpl.
  apply IH. intros c I. apply P. right. exact I.
Qed.

Lemma preserves_exec_create_as new proj src : preserves (exec_create_as new proj src).
Proof.
  intros db r db' W E. unfold exec_create_as in E.
  unfold bind at 1 in E. unfold get at 1 in E.
  destruct (table_exists new db) eqn:X; [inversion E; subst; exact W |].
  destruct proj as [| p proj]; [inversion E; subst; exact W |].
  read_step E (reads_the_table src) W.
  read_step E (reads_check_columns a (map fst (p :: proj))) W.
  read_step E (@reads_expect (list string) (result_names [] (map proj_name (p :: proj)))
                 UndeterminedName) W.
  apply expect_inv in Q1. destruct Q1 as [Names _].
  destruct (result_names_sound _ _ _ Names) as (N & L & _).
  unfold bind, put, ret in E. inversion E; subst.
  apply wf_db_app; [exact W | |].
  - simpl. rewrite table_exists_find in X.
    destruct (find_table new db); [discriminate X | reflexivity].
  - unfold wf_table. rewrite !andb_true_iff. split; [split |].
    + simpl. destruct a1; [discriminate L | reflexivity].
    + apply nodupb_NoDup. unfold col_names. simpl. rewrite col_names_plain. exact N.
    + cbn [tbl_rows tbl_cols]. apply width_number_rows.
      intros cells I. apply in_map_iff in I. destruct I as (r0 & <- & _).
      rewrite length_map, L. simpl. rewrite !length_map. reflexivity.
Qed.

Lemma preserves_exec_table_info n : preserves (exec_table_info n).
Proof.
  intros db r db' W E. unfold exec_table_info, bind, get, ret in E.
  destruct (find_table n db); inversion E; subst; exact W.
Qed.

Lemma preserves_exec_master_names : preserves exec_master_names.
Proof. intros db r db' W E. inversion E; subst. exact W. Qed.

Lemma preserves_exec_master_sql n : preserves (exec_master_sql n).
Proof. intros db r db' W E. inversion E; subst. exact W. Qed.

Lemma preserves_execute s params : preserves (execute s params).
Proof.
  destruct s; simpl.
  - apply preserves_exec_create.
  - apply preserves_exec_insert.
  - apply preserves_exec_select.
  - apply preserves_exec_update.
  - apply preserves_exec_delete.
  - apply preserves_exec_drop.
  - apply preserves_exec_create_as.
  - apply preserves_exec_rename.
  - apply preserves_exec_add_column.
  - apply preserves_exec_table_info.
  - apply preserves_exec_master_names.
  - apply preserves_exec_master_sql.
Qed.

Lemma preserves_conn_execute sql s params : preserves (conn_execute sql s params).
Proof.
  unfold conn_execute. destruct (String.eqb sql (sql_text s)).
  - apply preserves_execute.
  - apply preserves_fail.
Qed.

Lemma preserves_str_item k row : preserves (str_item k row).
Proof.
  unfold str_item. destruct (dict_get k row) as [[| | |] |];
    (apply preserves_ret || apply preserves_raise).
Qed.

(** X17.  The invariant: the empty database is well-formed and every tool of
    the facade keeps the database well-formed, whatever its outcome: no two
    tables share a name, every table has a column, no two columns of a table
    share a name, and every row has one value per column. *)
Theorem facade_keeps_database_well_formed :
  wf_db [] = true /\
  (forall n cols, preserves (create_table n cols)) /\
  (forall n data, preserves (insert_record n data)) /\
  (forall n filters, preserves (get_records n filters)) /\
  (forall n rid data, preserves (update_record n rid data)) /\
  (forall n rid, preserves (delete_record n rid)) /\
  (forall n, preserves (drop_table n)) /\
  (forall n c ty, preserves (add_column n c ty)) /\
  (forall n c, preserves (drop_column n c)) /\
  (forall o n, preserves (rename_table o n)) /\
  (forall n o c, preserves (rename_column n o c)) /\
  preserves get_schema.
Proof.
  split; [reflexivity |].
  repeat split; intros;
    repeat first
      [ apply preserves_ret
      | apply preserves_raise
      | apply preserves_conn_execute
      | apply preserves_str_item
      | apply preserves_mapM; intros
      | apply preserves_bind; [| intros]
      | match goal with
        | |- preserves (match ?o with Some _ => _ | None => _ end) => destruct o
        end
      | progress unfold create_table, insert_record, update_record, delete_record,
          drop_table, add_column, drop_column, rename_table, rename_column, get_schema ].
  (* get_records: the statement depends on the filters *)
  unfold get_records.
  destruct filters as [[| item filters] |];
    (apply preserves_bind; [apply preserves_conn_execute | intros; apply preserves_ret]).
Qed.

End EnginePreservesSchema.

(** * More of the facade

    Properties of the tools beyond the claims: what a call that raises
    leaves behind, what the reading tools never do, how the tools compose. *)

(** ** Reading and failing *)

Lemma reads_ret {A} (a : A) : reads (ret a).
Proof. intros db r db' E. inversion E. reflexivity. Qed.

Lemma reads_raise {A} e : reads (@raise A e).
Proof. intros db r db' E. inversion E. reflexivity. Qed.

Lemma reads_get : reads get.
Proof. intros db r db' E. inversion E. reflexivity. Qed.

Lemma reads_bind {A B} (m : M A) (k : A -> M B) :
  reads m -> (forall a, reads (k a)) -> reads (bind m k).
Proof.
  intros Rm Rk db r db' E. unfold bind in E.
  destruct (m db) as [[a | e] db1] eqn:Q.
  - apply Rm in Q. subst db1. apply (Rk a _ _ _ E).
  - inversion E; subst. apply (Rm _ _ _ Q).
Qed.

Lemma reads_mapM {A B} (f : A -> M B) (l : list A) :
  (forall a, reads (f a)) -> reads (mapM f l).
Proof.
  intros R. induction l as [| x l IH]; simpl.
  - apply reads_ret.
  - apply reads_bind; [apply R | intros y].
    apply reads_bind; [exact IH | intros ys]. apply reads_ret.
Qed.

Lemma reads_str_item k row : reads (str_item k row).
Proof.
  unfold str_item. destruct (dict_get k row) as [[| | |] |];
    (apply reads_ret || apply reads_raise).
Qed.

Lemma reads_exec_select n conds params : reads (exec_select n conds params).
Proof.
  unfold exec_select.
  apply reads_bind; [apply reads_the_table | intros t].
  apply reads_bind; [apply reads_check_columns | intros u].
  apply reads_bind; [apply reads_bind_pairs | intros want].
  apply reads_ret.
Qed.

Lemma reads_exec_table_info n : reads (exec_table_info n).
Proof.
  unfold exec_table_info. apply reads_bind; [apply reads_get | intros db0].
  destruct (find_table n db0); apply reads_ret.
Qed.

Lemma reads_exec_master_names : reads exec_master_names.
Proof.
  unfold exec_master_names. apply reads_bind; [apply reads_get | intros; apply reads_ret].
Qed.

Lemma reads_exec_master_sql n : reads (exec_master_sql n).
Proof.
  unfold exec_master_sql. apply reads_bind; [apply reads_get | intros; apply reads_ret].
Qed.








Section EngineAllOrNothing.
Context {wording : EngineText}.











End EngineAllOrNothing.

(** ** A call that raises *)

Section FacadeOutcomes.
Context {wording : EngineText}.








Lemma reads_conn_execute_select sql n conds params :
  reads (conn_execute sql (SSelectAll n conds) params).
Proof.
  unfold conn_execute. destruct (String.eqb _ _); [apply reads_exec_select | apply reads_raise].
Qed.

Lemma reads_get_records n filters : reads (get_records n filters).
Proof.
  unfold get_records.
  destruct filters as [[| item filters] |];
    (apply reads_bind; [apply reads_conn_execute_select | intros c; apply reads_ret]).
Qed.

Lemma reads_stored_ddl n : reads (stored_ddl n).
Proof.
  unfold stored_ddl. apply reads_bind.
  - unfold conn_execute. destruct (String.eqb _ _);
      [apply reads_exec_master_sql | apply reads_raise].
  - intros c. destruct (fetchone dict_factory c);
      [apply reads_str_item | apply reads_raise].
Qed.

Lemma reads_get_schema : reads get_schema.
Proof.
  unfold get_schema. apply reads_bind.
  - unfold conn_execute. destruct (String.eqb _ _);
      [apply reads_exec_master_names | apply reads_raise].
  - intros c. apply reads_bind; [apply reads_mapM; intros; apply reads_str_item |].
    intros tables. apply reads_bind; [| intros; apply reads_ret].
    apply reads_mapM. intros n. apply (reads_stored_ddl n).
Qed.


(** X2.  The reading tools never write: whatever [get_records] and
    [get_schema] return or raise, the database is the one they were given. *)
Theorem reading_tools_change_nothing :
  (forall n filters db, snd (get_records n filters db) = db) /\
  (forall db, snd (get_schema db) = db).
Proof.
  split; intros.
  - destruct (get_records n filters db) as [r db'] eqn:E.
    apply (reads_get_records _ _ _ _ _ E).
  - destruct (get_schema db) as [r db'] eqn:E.
    apply (reads_get_schema _ _ _ E).
Qed.

End FacadeOutcomes.

(** ** Tables that are not there, mappings that are empty *)




Section MissingTable.
Context {wording : EngineText}.




End MissingTable.


(** ** The row factory *)

Lemma keys_combine (names : list string) (cells : list value) :
  length cells = length names -> keys (combine names cells) = names.
Proof.
  revert cells. induction names as [| n names IH]; intros [| v cells] L;
    simpl in *; try reflexivity; try discriminate L.
  f_equal. apply IH. lia.
Qed.

(** X5.  [dict_factory] on a row that has one value per result column, the
    columns having distinct names: the dictionary lists the columns in the
    order of the cursor's description, each with the value at its position.
    It is a dictionary (no key twice) and reading it at the i-th column
    name gives the i-th value of the row. *)
Theorem dict_factory_zips (c : cursor) (row : list value) :
  nodupb (description c) = true ->
  length row = length (description c) ->
  dict_factory c row = combine (description c) row /\
  keys (dict_factory c row) = description c /\
  is_dict (dict_factory c row) = true /\
  (forall i k, nth_error (description c) i = Some k ->
               dict_get k (dict_factory c row) = nth_error row i).
Proof.
  intros D L. pose proof D as D'. apply nodupb_NoDup in D'.
  rewrite (dict_factory_combine c row D' L).
  rewrite (keys_combine _ _ L).
  split; [reflexivity |]. split; [reflexivity |]. split.
  - unfold is_dict. rewrite (keys_combine _ _ L). exact D.
  - intros i k N.
    assert (I : In k (description c)) by (eapply nth_error_In; exact N).
    rewrite (dict_get_combine _ _ _ L I).
    destruct (index_of k (description c)) as [j |] eqn:X.
    + pose proof (index_of_nth _ _ _ X) as N'.
      assert (j = i).
      { rewrite NoDup_nth_error in D'. apply D'.
        - apply nth_error_Some. congruence.
        - congruence. }
      subst j.
      assert (i < length row).
      { rewrite L. apply nth_error_Some. congruence. }
      symmetry. apply nth_error_nth'. exact H.
    + destruct (index_of_In _ _ I) as [j J]. congruence.
Qed.

Lemma dict_factory_zips_witness :
  let c := mkCursor ["id"; "name"; "age"] [] 0 in
  let row := [VInt 1; VText "John Doe"; VInt 30] in
  dict_factory c row = combine (description c) row /\
  keys (dict_factory c row) = description c /\
  is_dict (dict_factory c row) = true /\
  (forall i k, nth_error (description c) i = Some k ->
               dict_get k (dict_factory c row) = nth_error row i).
Proof.
  apply (dict_factory_zips (mkCursor ["id"; "name"; "age"] [] 0)
           [VInt 1; VText "John Doe"; VInt 30]); reflexivity.
Defined.

(** ** Inserting *)

Lemma fold_max_init (l : list Z) a : (a <= fold_left Z.max l a)%Z.
Proof.
  revert a. induction l as [| x l IH]; intros a; simpl; [lia |].
  specialize (IH (Z.max a x)). lia.
Qed.

Lemma fold_max_In (l : list Z) a x : In x l -> (x <= fold_left Z.max l a)%Z.
Proof.
  revert a. induction l as [| y l IH]; intros a I; [contradiction |].
  destruct I as [E | I]; simpl.
  - subst y. pose proof (fold_max_init l (Z.max a x)). lia.
  - apply IH. exact I.
Qed.

(** The identifier the engine picks is larger than every one in use. *)
Lemma next_rowid_above rows r : In r rows -> (row_id r < next_rowid rows)%Z.
Proof.
  destruct rows as [| r0 rs]; intros I; [contradiction |].
  unfold next_rowid. destruct I as [<- | I].
  - pose proof (fold_max_init (map row_id rs) (row_id r0)). lia.
  - pose proof (fold_max_In (map row_id rs) (row_id r0) (row_id r) (in_map _ _ _ I)). lia.
Qed.

Lemma next_rowid_unused rows : ~ In (next_rowid rows) (map row_id rows).
Proof.
  intros I. apply in_map_iff in I. destruct I as (r & E & I).
  pose proof (next_rowid_above _ _ I). lia.
Qed.





Section Inserting.
Context {wording : EngineText}.







End Inserting.



(** ** Rows in the order of their identifiers *)

#[local] Arguments increasing : simpl never.

Lemma increasing_cons x l :
  increasing (x :: l) = true <-> (forall y, In y l -> (x < y)%Z) /\ increasing l = true.
Proof.
  revert x. induction l as [| y l IH]; intros x.
  - split; [intros _; split; [intros y [] | reflexivity] | reflexivity].
  - change (increasing (x :: y :: l)) with ((x <? y)%Z && increasing (y :: l)).
    rewrite andb_true_iff, Z.ltb_lt. split.
    + intros [L I]. split; [| exact I].
      intros z [<- | Z]; [exact L |].
      apply IH in I. destruct I as [A _]. specialize (A z Z). lia.
    + intros [A I]. split; [apply A; left; reflexivity | exact I].
Qed.

Lemma increasing_NoDup l : increasing l = true -> NoDup l.
Proof.
  induction l as [| x l IH]; intros I; [constructor |].
  apply increasing_cons in I. destruct I as [A I].
  constructor; [| apply IH; exact I].
  intros X. specialize (A x X). lia.
Qed.

Lemma increasing_filter (p : row -> bool) rows :
  increasing (map row_id rows) = true -> increasing (map row_id (filter p rows)) = true.
Proof.
  induction rows as [| r rows IH]; intros I; [reflexivity |].
  simpl in I. apply increasing_cons in I. destruct I as [A I]. simpl.
  destruct (p r); [| apply IH; exact I].
  simpl. apply increasing_cons. split; [| apply IH; exact I].
  intros y Y. apply A. apply in_map_iff in Y. destruct Y as (x & <- & X).
  apply in_map. apply filter_In in X. tauto.
Qed.

Lemma increasing_insert_row r rows :
  increasing (map row_id rows) = true -> ~ In (row_id r) (map row_id rows) ->
  increasing (map row_id (insert_row r rows)) = true.
Proof.
  induction rows as [| x rows IH]; intros I N; [reflexivity |].
  simpl in I. pose proof I as I0. apply increasing_cons in I. destruct I as [A I]. simpl.
  destruct (row_id r <? row_id x)%Z eqn:L.
  - simpl. apply increasing_cons. split; [| exact I0].
    apply Z.ltb_lt in L. intros y [<- | Y]; [exact L |]. specialize (A y Y). lia.
  - simpl. apply increasing_cons. split.
    + intros y Y. apply in_map_iff in Y. destruct Y as (z & <- & Z).
      apply In_insert_row in Z. destruct Z as [-> | Z].
      * apply Z.ltb_ge in L. assert (row_id r <> row_id x).
        { intros E. apply N. left. symmetry. exact E. }
        lia.
      * apply A. apply in_map. exact Z.
    + apply IH; [exact I |]. intros Y. apply N. right. exact Y.
Qed.

Lemma number_rows_above k l y :
  In y (map row_id (number_rows k l)) -> (k <= y)%Z.
Proof.
  revert k. induction l as [| cells l IH]; intros k I; [contradiction |].
  simpl in I. destruct I as [<- | I]; [lia |]. specialize (IH _ I). lia.
Qed.

Lemma increasing_number_rows k l : increasing (map row_id (number_rows k l)) = true.
Proof.
  revert k. induction l as [| cells l IH]; intros k; [reflexivity |].
  simpl. apply increasing_cons. split; [| apply IH].
  intros y Y. apply number_rows_above in Y. lia.
Qed.

Lemma rows_in_order_table db n t :
  rows_in_order db = true -> find_table n db = Some t -> increasing (rowids t) = true.
Proof.
  intros O F. unfold rows_in_order in O. rewrite forallb_forall in O.
  apply (O t). exact (find_table_In _ _ _ F).
Qed.

Lemma rows_in_order_update_table db n f :
  rows_in_order db = true ->
  (forall t, In t db -> increasing (rowids (f t)) = true) ->
  rows_in_order (update_table n f db) = true.
Proof.
  intros O P. unfold rows_in_order. apply forallb_forall. intros t' I.
  apply In_update_table in I. destruct I as [I | (t & I & _ & ->)].
  - unfold rows_in_order in O. rewrite forallb_forall in O. apply O. exact I.
  - apply P. exact I.
Qed.

Lemma rows_in_order_app db t :
  rows_in_order db = true -> increasing (rowids t) = true ->
  rows_in_order (db ++ [t])%list = true.
Proof.
  intros O I. unfold rows_in_order. rewrite forallb_app. simpl.
  unfold rows_in_order in O. rewrite O, I. reflexivity.
Qed.

Lemma rows_in_order_remove_table db n :
  rows_in_order db = true -> rows_in_order (remove_table n db) = true.
Proof.
  unfold rows_in_order. rewrite !forallb_forall. intros O t I.
  apply O. unfold remove_table in I. apply filter_In in I. tauto.
Qed.

Lemma keeps_order_ret {A} (a : A) : keeps_order (ret a).
Proof. intros db r db' O E. inversion E; subst. exact O. Qed.

Lemma keeps_order_raise {A} e : keeps_order (@raise A e).
Proof. intros db r db' O E. inversion E; subst. exact O. Qed.

Lemma keeps_order_reads {A} (m : M A) : reads m -> keeps_order m.
Proof. intros R db r db' O E. apply R in E. subst. exact O. Qed.

Lemma keeps_order_bind {A B} (m : M A) (k : A -> M B) :
  keeps_order m -> (forall a, keeps_order (k a)) -> keeps_order (bind m k).
Proof.
  intros Km Kk db r db' O E. apply bind_cases in E.
  destruct E as [(e & Q) | (a & db1 & Q & E)].
  - apply (Km _ _ _ O Q).
  - apply (Kk a db1 r db'); [apply (Km _ _ _ O Q) | exact E].
Qed.

Lemma keeps_order_mapM {A B} (f : A -> M B) (l : list A) :
  (forall a, keeps_order (f a)) -> keeps_order (mapM f l).
Proof.
  intros K. induction l as [| x l IH]; simpl.
  - apply keeps_order_ret.
  - apply keeps_order_bind; [apply K | intros y].
    apply keeps_order_bind; [exact IH | intros ys]. apply keeps_order_ret.
Qed.

Section EngineKeepsOrder.
Context {wording : EngineText}.

Lemma keeps_order_exec_create n defs : keeps_order (exec_create n defs).
Proof.
  intros db r db' W E. unfold exec_create in E.
  destruct defs as [| d defs]; [inversion E; subst; exact W |].
  unfold bind at 1 in E. unfold get at 1 in E.
  destruct (table_exists n db); [inversion E; subst; exact W |].
  destruct (first_duplicate _); [inversion E; subst; exact W |].
  destruct (Nat.ltb 1 _); [inversion E; subst; exact W |].
  unfold bind, put, ret in E. inversion E; subst.
  apply rows_in_order_app; [exact W | reflexivity].
Qed.

Lemma keeps_order_exec_insert n cols params : keeps_order (exec_insert n cols params).
Proof.
  intros db r db' W E. unfold exec_insert in E.
  destruct cols as [| c cols]; [inversion E; subst; exact W |].
  read_step E (reads_the_table n) W.
  apply the_table_inv in Q. destruct Q as [F _].
  read_step E (reads_check_columns a (map fst (c :: cols))) W.
  read_step E (reads_bind_pairs (c :: cols) params) W.
  read_step E (@reads_expect rowid_choice (asked_rowid a a1) DatatypeMismatch) W.
  apply bind_cases in E. destruct E as [(e & Q4) | (rid & db1 & Q4 & E)].
  - destruct a2; [inversion Q4; subst; exact W |].
    destruct (existsb _ _); inversion Q4; subst; exact W.
  - assert (Fresh : db1 = db /\ ~ In rid (rowids a)).
    { destruct a2.
      - inversion Q4; subst. split; [reflexivity | apply next_rowid_unused].
      - destruct (existsb (Z.eqb z) (rowids a)) eqn:U; inversion Q4; subst.
        split; [reflexivity | apply existsb_Zeqb_false; exact U]. }
    destruct Fresh as [-> Fresh].
    unfold bind, store_rows, get, put, ret in E. inversion E; subst.
    apply rows_in_order_update_table; [exact W |]. intros t _.
    apply increasing_insert_row; [apply (rows_in_order_table _ _ _ W F) | exact Fresh].
Qed.

Lemma keeps_order_exec_update n sets w params : keeps_order (exec_update n sets w params).
Proof.
  intros db r db' W E. unfold exec_update in E.
  destruct sets as [| c sets]; [inversion E; subst; exact W |].
  read_step E (reads_the_table n) W.
  apply the_table_inv in Q. destruct Q as [F _].
  read_step E (reads_check_columns a (map fst (c :: sets))) W.
  read_step E (reads_bind_pairs (c :: sets) params) W.
  read_step E (reads_bound w params) W.
  destruct a2; try (inversion E; subst; exact W).
  destruct (find_row z (tbl_rows a)) as [old |] eqn:Old; [| inversion E; subst; exact W].
  read_step E (@reads_expect Z (moved_rowid a a1 z) DatatypeMismatch) W.
  destruct (existsb _ _) eqn:U; [inversion E; subst; exact W |].
  unfold bind, store_rows, get, put, ret in E. inversion E; subst.
  apply rows_in_order_update_table; [exact W |]. intros t _.
  apply increasing_insert_row.
  - apply increasing_filter. apply (rows_in_order_table _ _ _ W F).
  - apply existsb_Zeqb_false. exact U.
Qed.

Lemma keeps_order_exec_delete n w params : keeps_order (exec_delete n w params).
Proof.
  intros db r db' W E. unfold exec_delete in E.
  read_step E (reads_the_table n) W.
  apply the_table_inv in Q. destruct Q as [F _].
  read_step E (reads_bound w params) W.
  destruct a0; try (inversion E; subst; exact W).
  unfold bind, store_rows, get, put, ret in E. inversion E; subst.
  apply rows_in_order_update_table; [exact W |]. intros t _.
  apply increasing_filter. apply (rows_in_order_table _ _ _ W F).
Qed.

Lemma keeps_order_exec_drop ie n : keeps_order (exec_drop ie n).
Proof.
  intros db r db' W E. unfold exec_drop, bind, get, put, ret in E.
  destruct (table_exists n db).
  - inversion E; subst. apply rows_in_order_remove_table. exact W.
  - destruct ie; inversion E; subst; exact W.
Qed.

Lemma keeps_order_exec_rename old new : keeps_order (exec_rename old new).
Proof.
  intros db r db' W E. unfold exec_rename in E.
  read_step E (reads_the_table old) W.
  unfold bind, get, put, ret in E.
  destruct (table_exists new db); [inversion E; subst; exact W |].
  inversion E; subst.
  apply rows_in_order_update_table; [exact W |]. intros t I.
  unfold rows_in_order in W. rewrite forallb_forall in W. apply (W t I).
Qed.

Lemma keeps_order_exec_add_column n c ty : keeps_order (exec_add_column n c ty).
Proof.
  intros db r db' W E. unfold exec_add_column in E.
  read_step E (reads_the_table n) W.
  destruct (mem c (col_names a)); [inversion E; subst; exact W |].
  destruct (is_rowid_alias ty); [inversion E; subst; exact W |].
  unfold bind, get, put, ret in E. inversion E; subst.
  apply rows_in_order_update_table; [exact W |]. intros t I.
  unfold rowids. simpl. rewrite map_map. simpl.
  unfold rows_in_order in W. rewrite forallb_forall in W. apply (W t I).
Qed.

Lemma keeps_order_exec_create_as new proj src : keeps_order (exec_create_as new proj src).
Proof.
  intros db r db' W E. unfold exec_create_as in E.
  unfold bind at 1 in E. unfold get at 1 in E.
  destruct (table_exists new db); [inversion E; subst; exact W |].
  destruct proj as [| p proj]; [inversion E; subst; exact W |].
  read_step E (reads_the_table src) W.
  read_step E (reads_check_columns a (map fst (p :: proj))) W.
  read_step E (@reads_expect (list string) (result_names [] (map proj_name (p :: proj)))
                 UndeterminedName) W.
  unfold bind, put, ret in E. inversion E; subst.
  apply rows_in_order_app; [exact W |]. apply increasing_number_rows.
Qed.

Lemma keeps_order_execute s params : keeps_order (execute s params).
Proof.
  destruct s; simpl.
  - apply keeps_order_exec_create.
  - apply keeps_order_exec_insert.
  - apply keeps_order_reads, reads_exec_select.
  - apply keeps_order_exec_update.
  - apply keeps_order_exec_delete.
  - apply keeps_order_exec_drop.
  - apply keeps_order_exec_create_as.
  - apply keeps_order_exec_rename.
  - apply keeps_order_exec_add_column.
  - apply keeps_order_reads, reads_exec_table_info.
  - apply keeps_order_reads, reads_exec_master_names.
  - apply keeps_order_reads, reads_exec_master_sql.
Qed.

Lemma keeps_order_conn_execute sql s params : keeps_order (conn_execute sql s params).
Proof.
  unfold conn_execute. destruct (String.eqb sql (sql_text s)).
  - apply keeps_order_execute.
  - apply keeps_order_raise.
Qed.

(** X8.  A second invariant: starting from the empty database, every tool
    leaves the rows of every table stored by strictly increasing row
    identifier.  Hence [get_records] returns rows in that order and a
    [record_id] names at most one row of a table. *)
Theorem facade_keeps_rows_in_order :
  rows_in_order [] = true /\
  (forall db n t, rows_in_order db = true -> find_table n db = Some t ->
                  NoDup (rowids t)) /\
  (forall n cols, keeps_order (create_table n cols)) /\
  (forall n data, keeps_order (insert_record n data)) /\
  (forall n filters, keeps_order (get_records n filters)) /\
  (forall n rid data, keeps_order (update_record n rid data)) /\
  (forall n rid, keeps_order (delete_record n rid)) /\
  (forall n, keeps_order (drop_table n)) /\
  (forall n c ty, keeps_order (add_column n c ty)) /\
  (forall n c, keeps_order (drop_column n c)) /\
  (forall o n, keeps_order (rename_table o n)) /\
  (forall n o c, keeps_order (rename_column n o c)) /\
  keeps_order get_schema.
Proof.
  split; [reflexivity |].
  split; [intros db n t O F; apply increasing_NoDup, (rows_in_order_table _ _ _ O F) |].
  repeat split; intros;
    try (apply keeps_order_reads; (apply reads_get_records || apply reads_get_schema));
    repeat first
      [ apply keeps_order_ret
      | apply keeps_order_conn_execute
      | apply keeps_order_reads, reads_str_item
      | apply keeps_order_mapM; intros
      | apply keeps_order_bind; [| intros]
      | progress unfold create_table, insert_record, update_record, delete_record,
          drop_table, add_column, drop_column, rename_table, rename_column ].
Qed.

End EngineKeepsOrder.

(** ** Deleting and updating, read back *)


Section ReadBack.
Context {wording : EngineText}.



End ReadBack.



(** ** The schema tools *)





Lemma update_table_absent n f db : find_table n db = None -> update_table n f db = db.
Proof.
  induction db as [| x db IH]; intros F; [reflexivity |].
  unfold find_table in F. simpl in *. destruct (has_name n x); [discriminate F |].
  f_equal. apply IH. exact F.
Qed.






Section SchemaTools.
Context {wording : EngineText}.











End SchemaTools.





(** ** What the copy-rebuild sequence does besides *)

Section RebuildSideEffects.
Context {wording : EngineText}.



Lemma shadow_free db n : table_exists (n ++ "_new") db = false ->
  find_table (n ++ "_new") db = None.
Proof.
  intros X. rewrite table_exists_find in X.
  destruct (find_table (n ++ "_new") db); [discriminate X | reflexivity].
Qed.




End RebuildSideEffects.



(** ** Undoing a schema change *)







Section UndoingSchemaChanges.
Context {wording : EngineText}.



End UndoingSchemaChanges.


